(** * sql2csv: extraction of the [x_world] records of a Travian map dump

    A shallow embedding of [src/sql2csv.py] and of the parts of the Python
    libraries it calls ([re], [csv], [requests], text files), followed by the
    properties of the program.

    Conventions.
    - A Python [str] is a list of Unicode code points ([N]).
    - Library behaviour follows CPython 3.11: the backtracking matcher of
      [sre], the reader and writer automata of [Modules/_csv.c], the line
      iteration of a text file, and [Response.raise_for_status] of
      [requests].
    - Effects are kept explicit: a run threads a chronological trace of
      events (lines printed on standard error, HTTP requests, files opened
      and written) and may raise a Python exception.  What the outside world
      answers (the response to the request, whether a file can be opened) is
      a parameter of the run.
    - The content of a file is the text that was handed to its text stream;
      how the stream turns text into bytes (the encoding, and the platform's
      line separator for a file opened without [newline]) is not modelled. *)

From Stdlib Require Import Ascii String DecimalString.
From Stdlib Require Import List NArith ZArith Bool Lia Sorted.
Import ListNotations.

(* ===================================================================== *)
(** * Python text *)
(* ===================================================================== *)

Abbreviation char := N (only parsing).
Abbreviation str := (list N) (only parsing).

(** The code points of an ASCII literal. *)
Definition lit (s : string) : str := map N_of_ascii (list_ascii_of_string s).

(** [str(n)] for an [int]. *)
Definition str_of_int (z : Z) : str := lit (NilZero.string_of_int (Z.to_int z)).

Definition LF : char := 10%N.
Definition CR : char := 13%N.
Definition ELLIPSIS : char := 8230%N.

Fixpoint str_eqb (a b : str) : bool :=
  match a, b with
  | [], [] => true
  | x :: a', y :: b' => (x =? y)%N && str_eqb a' b'
  | _, _ => false
  end.

(* ===================================================================== *)
(** * The [re] module: a backtracking matcher *)
(* ===================================================================== *)

Module re.

Local Open Scope N_scope.

(** What one pattern position can test on one character. *)
Inductive atom :=
| Literal (c : char)      (* an ordinary character of the pattern *)
| Any                     (* [.] without DOTALL *)
| CategorySpace.          (* [\s] of a str pattern *)

(** The compiled form of a pattern, for the constructs used here: single
    characters, greedy and lazy repetition of a single character, and the
    two marks of capturing group 1. *)
Inductive op :=
| One (a : atom)
| MaxRepeat (a : atom)    (* a*  *)
| MinRepeat (a : atom)    (* a*? *)
| MarkOpen                (* (   *)
| MarkClose.              (* )   *)

Definition pattern := list op.

(** [sre_lower_unicode], on the code points whose lower case is an ASCII
    letter: A-Z, U+0130 (to i) and U+212A (to k).  The other code points
    are left as they are, which is exact whenever the result is compared
    with an ASCII character, as it always is below. *)
Definition lower (c : char) : char :=
  if (65 <=? c) && (c <=? 90) then c + 32
  else if c =? 304 then 105
  else if c =? 8490 then 107
  else c.

(** The extra equivalences [sre_compile] adds to a lower-case letter under
    IGNORECASE: i ~ U+0131, s ~ U+017F. *)
Definition fixes (lo : char) : list char :=
  if lo =? 105 then [305] else if lo =? 115 then [383] else [].

Definition literal_match (ignorecase : bool) (l c : char) : bool :=
  if ignorecase
  then let lo := lower l in
       (lower c =? lo) || existsb (N.eqb (lower c)) (fixes lo)
  else c =? l.

(** [Py_UNICODE_ISSPACE]. *)
Definition is_space (c : char) : bool :=
  ((9 <=? c) && (c <=? 13)) || ((28 <=? c) && (c <=? 32))
  || (c =? 133) || (c =? 160) || (c =? 5760)
  || ((8192 <=? c) && (c <=? 8202))
  || (c =? 8232) || (c =? 8233) || (c =? 8239) || (c =? 8287)
  || (c =? 12288).

Definition atom_match (ignorecase : bool) (a : atom) (c : char) : bool :=
  match a with
  | Literal l => literal_match ignorecase l c
  | Any => negb (c =? LF)
  | CategorySpace => is_space c
  end.

(** The state of group 1 while matching: whether the group is open, and
    the text it has captured. *)
Record marks := { recording : bool; group1 : str }.

Definition no_marks : marks := {| recording := false; group1 := [] |}.

Definition consume (m : marks) (c : char) : marks :=
  if recording m then {| recording := true; group1 := group1 m ++ [c] |} else m.

Definition mark_open (m : marks) : marks := {| recording := true; group1 := [] |}.
Definition mark_close (m : marks) : marks := {| recording := false; group1 := group1 m |}.

(** A successful match: the text of group 1 and the text left after the
    match. *)
Definition found := (str * str)%type.

Section Matcher.
Variable ignorecase : bool.

(** Greedy repetition: take the character if it fits and go on; when the
    rest of the pattern then fails, give the character back. *)
Fixpoint max_repeat (a : atom) (k : marks -> str -> option found)
         (m : marks) (t : str) : option found :=
  match t with
  | c :: t' =>
      if atom_match ignorecase a c
      then match max_repeat a k (consume m c) t' with
           | Some r => Some r
           | None => k m t
           end
      else k m t
  | [] => k m t
  end.

(** Lazy repetition: try the rest of the pattern first; only when it
    fails take one more character. *)
Fixpoint min_repeat (a : atom) (k : marks -> str -> option found)
         (m : marks) (t : str) : option found :=
  match k m t with
  | Some r => Some r
  | None =>
      match t with
      | c :: t' =>
          if atom_match ignorecase a c
          then min_repeat a k (consume m c) t'
          else None
      | [] => None
      end
  end.

(** [exec p start must_advance m t]: match [p] at the head of [t].
    [start] is the length of the text where the attempt began; with
    [must_advance] an attempt that consumed nothing is rejected and
    backtracking goes on (sre's rule after an empty match). *)
Fixpoint exec (p : pattern) (start : nat) (must_advance : bool)
         : marks -> str -> option found :=
  match p with
  | [] => fun m t =>
      if must_advance && (length t =? start)%nat then None
      else Some (group1 m, t)
  | One a :: p' => fun m t =>
      match t with
      | c :: t' =>
          if atom_match ignorecase a c
          then exec p' start must_advance (consume m c) t'
          else None
      | [] => None
      end
  | MaxRepeat a :: p' => max_repeat a (exec p' start must_advance)
  | MinRepeat a :: p' => min_repeat a (exec p' start must_advance)
  | MarkOpen :: p' => fun m t => exec p' start must_advance (mark_open m) t
  | MarkClose :: p' => fun m t => exec p' start must_advance (mark_close m) t
  end.

(** One attempt at the head of [t]. *)
Definition match_here (p : pattern) (must_advance : bool) (t : str)
  : option found :=
  exec p (length t) must_advance no_marks t.

(** The scan of [finditer]/[findall]: left to right, one attempt per
    position; after a match the scan resumes where the match ended
    ([skip] counts the characters still covered by the last match).  After
    an empty match the same position is tried once more for a non-empty
    one.  Each match is returned with its start offset. *)
Fixpoint scan (p : pattern) (off : nat) (skip : nat) (t : str)
  : list (nat * str) :=
  match t with
  | [] =>
      match skip, match_here p false [] with
      | O, Some (g, _) => [(off, g)]
      | _, _ => []
      end
  | _ :: t' =>
      match skip with
      | S k => scan p (S off) k t'
      | O =>
          match match_here p false t with
          | None => scan p (S off) 0 t'
          | Some (g, rest) =>
              if (length rest =? length t)%nat
              then (off, g) ::
                   match match_here p true t with
                   | None => scan p (S off) 0 t'
                   | Some (g', rest') =>
                       (off, g') ::
                       scan p (S off) (length t - length rest' - 1) t'
                   end
              else (off, g) :: scan p (S off) (length t - length rest - 1) t'
          end
      end
  end.

Definition finditer (p : pattern) (t : str) : list (nat * str) :=
  scan p 0 0 t.

(** With one group in the pattern, [findall] returns the list of the
    texts of that group. *)
Definition findall (p : pattern) (t : str) : list str :=
  map snd (finditer p t).

End Matcher.

(** A run of ordinary characters. *)
Definition literals (s : str) : pattern := map (fun c => One (Literal c)) s.

(** Whether the text starts with the characters of [s], each compared as
    a [Literal] is. *)
Fixpoint literal_prefix (ignorecase : bool) (s t : str) : bool :=
  match s, t with
  | [], _ => true
  | l :: s', c :: t' => literal_match ignorecase l c && literal_prefix ignorecase s' t'
  | _ :: _, [] => false
  end.

(** What a mark state becomes over a run of consumed characters. *)
Definition consume_all (m : marks) (s : str) : marks := fold_left consume s m.

End re.

(* ===================================================================== *)
(** * Python exceptions *)
(* ===================================================================== *)

(** The exceptions a run can raise.  [RequestException] stands for
    [requests.RequestException] and its subclasses other than [HTTPError]
    (connection errors, timeouts, too many redirects). *)
Inductive exn :=
| HTTPError (msg : str)
| RequestException (msg : str)
| CsvError (msg : str)
| OSError (msg : str)
| StopIteration
| SystemExit (code : Z).

(** [isinstance(e, requests.RequestException)]. *)
Definition is_RequestException (e : exn) : bool :=
  match e with
  | HTTPError _ | RequestException _ => true
  | _ => false
  end.

(** [isinstance(e, Exception)]: everything but [SystemExit], which derives
    from [BaseException] only. *)
Definition is_Exception (e : exn) : bool :=
  match e with
  | SystemExit _ => false
  | _ => true
  end.

(** [str(e)]. *)
Definition exn_str (e : exn) : str :=
  match e with
  | HTTPError msg | RequestException msg | CsvError msg | OSError msg => msg
  | StopIteration => []
  | SystemExit code => str_of_int code
  end.

Inductive outcome (A : Type) :=
| Ok (a : A)
| Raise (e : exn).

Arguments Ok {A} a.
Arguments Raise {A} e.

(* ===================================================================== *)
(** * The [csv] module *)
(* ===================================================================== *)

Module csv.

Local Open Scope N_scope.

(** A dialect with [quoting = QUOTE_MINIMAL] and [escapechar = None], the
    defaults, which the program never changes; the escape states of the
    reader are therefore never entered and are left out. *)
Record Dialect := {
  delimiter : char;
  quotechar : char;
  doublequote : bool;
  skipinitialspace : bool;
  lineterminator : str;
  strict : bool
}.

(** The default dialect, ["excel"]. *)
Definition excel : Dialect := {|
  delimiter := 44;
  quotechar := 34;
  doublequote := true;
  skipinitialspace := false;
  lineterminator := [CR; LF];
  strict := false
|}.

(** [csv.field_size_limit()], never changed by the program. *)
Definition field_limit : N := 131072.

(** ** Reader *)

Inductive ParserState :=
| START_RECORD
| START_FIELD
| IN_FIELD
| IN_QUOTED_FIELD
| QUOTE_IN_QUOTED_FIELD
| EAT_CRNL.

Record ReaderObj := {
  state : ParserState;
  fields : list str;      (* the fields of the record read so far *)
  field : str             (* the field under construction *)
}.

(** What the automaton is fed: a character of the line, or the end-of-line
    mark that follows the last character of each line. *)
Inductive input :=
| Ch (c : char)
| EOL.

Definition is_newline (i : input) : bool :=
  match i with
  | Ch c => (c =? LF) || (c =? CR)
  | EOL => false
  end.

Definition set_state (s : ParserState) (r : ReaderObj) : ReaderObj :=
  {| state := s; fields := fields r; field := field r |}.

Definition parse_reset : ReaderObj :=
  {| state := START_RECORD; fields := []; field := [] |}.

Definition parse_save_field (r : ReaderObj) : ReaderObj :=
  {| state := state r; fields := fields r ++ [field r]; field := [] |}.

Definition field_limit_msg : str := lit "field larger than field limit (131072)".
Definition newline_msg : str :=
  lit "new-line character seen in unquoted field - do you need to open the file in universal-newline mode?".

Definition parse_add_char (r : ReaderObj) (c : char) : outcome ReaderObj :=
  if field_limit <=? N.of_nat (length (field r))
  then Raise (CsvError field_limit_msg)
  else Ok {| state := state r; fields := fields r; field := field r ++ [c] |}.

Definition add_then (s : ParserState) (r : ReaderObj) (c : char) : outcome ReaderObj :=
  match parse_add_char r c with
  | Ok r' => Ok (set_state s r')
  | Raise e => Raise e
  end.

Definition end_of_line (i : input) (r : ReaderObj) : ReaderObj :=
  set_state (match i with EOL => START_RECORD | Ch _ => EAT_CRNL end)
            (parse_save_field r).

(** [parse_process_char] of [_csv.c], one case per state. *)
Definition start_field (d : Dialect) (r : ReaderObj) (i : input) : outcome ReaderObj :=
  match i with
  | EOL => Ok (end_of_line i r)
  | Ch c =>
      if is_newline i then Ok (end_of_line i r)
      else if c =? quotechar d then Ok (set_state IN_QUOTED_FIELD r)
      else if (c =? 32) && skipinitialspace d then Ok r
      else if c =? delimiter d then Ok (parse_save_field r)
      else add_then IN_FIELD r c
  end.

Definition parse_process_char (d : Dialect) (r : ReaderObj) (i : input)
  : outcome ReaderObj :=
  match state r with
  | START_RECORD =>
      match i with
      | EOL => Ok r
      | Ch c =>
          if is_newline i then Ok (set_state EAT_CRNL r)
          else start_field d (set_state START_FIELD r) i
      end
  | START_FIELD => start_field d r i
  | IN_FIELD =>
      match i with
      | EOL => Ok (end_of_line i r)
      | Ch c =>
          if is_newline i then Ok (end_of_line i r)
          else if c =? delimiter d
               then Ok (set_state START_FIELD (parse_save_field r))
          else parse_add_char r c
      end
  | IN_QUOTED_FIELD =>
      match i with
      | EOL => Ok r
      | Ch c =>
          if c =? quotechar d
          then Ok (set_state (if doublequote d then QUOTE_IN_QUOTED_FIELD
                              else IN_FIELD) r)
          else parse_add_char r c
      end
  | QUOTE_IN_QUOTED_FIELD =>
      match i with
      | EOL => Ok (end_of_line i r)
      | Ch c =>
          if c =? quotechar d then add_then IN_QUOTED_FIELD r c
          else if c =? delimiter d
               then Ok (set_state START_FIELD (parse_save_field r))
          else if is_newline i then Ok (end_of_line i r)
          else if negb (strict d) then add_then IN_FIELD r c
          else Raise (CsvError ([39; delimiter d; 39] ++ lit " expected after "
                                ++ [39; quotechar d; 39]))
      end
  | EAT_CRNL =>
      match i with
      | EOL => Ok (set_state START_RECORD r)
      | Ch c =>
          if is_newline i then Ok r
          else Raise (CsvError newline_msg)
      end
  end.

(** The characters of one line, in order. *)
Fixpoint feed (d : Dialect) (r : ReaderObj) (line : str) : outcome ReaderObj :=
  match line with
  | [] => Ok r
  | c :: line' =>
      match parse_process_char d r (Ch c) with
      | Ok r' => feed d r' line'
      | Raise e => Raise e
      end
  end.

(** The loop of [Reader_iternext]: lines are taken from the input until the
    automaton is back in [START_RECORD].  Returns the record, or the
    exception raised, and the lines not yet consumed. *)
Fixpoint iternext_loop (d : Dialect) (r : ReaderObj) (lines : list str)
  : outcome (list str) * list str :=
  match lines with
  | [] =>
      if negb (length (field r) =? 0)%nat
         || match state r with IN_QUOTED_FIELD => true | _ => false end
      then if strict d
           then (Raise (CsvError (lit "unexpected end of data")), [])
           else (Ok (fields (parse_save_field r)), [])
      else (Raise StopIteration, [])
  | line :: rest =>
      match feed d r line with
      | Raise e => (Raise e, rest)
      | Ok r1 =>
          match parse_process_char d r1 EOL with
          | Raise e => (Raise e, rest)
          | Ok r2 =>
              match state r2 with
              | START_RECORD => (Ok (fields r2), rest)
              | _ => iternext_loop d r2 rest
              end
          end
      end
  end.

(** [next(reader)] for a reader over the given lines. *)
Definition reader_next (d : Dialect) (lines : list str)
  : outcome (list str) * list str :=
  iternext_loop d parse_reset lines.

(** [list(reader)]: records until the lines are exhausted.  Every call of
    [next] that returns takes at least one line, so as many calls as there
    are lines, plus one, are enough. *)
Fixpoint reader_rows (fuel : nat) (d : Dialect) (lines : list str)
  : outcome (list (list str)) :=
  match fuel with
  | O => Ok []
  | S fuel' =>
      match reader_next d lines with
      | (Raise StopIteration, _) => Ok []
      | (Raise e, _) => Raise e
      | (Ok row, rest) =>
          match reader_rows fuel' d rest with
          | Ok rows => Ok (row :: rows)
          | Raise e => Raise e
          end
      end
  end.

Definition reader_all (d : Dialect) (lines : list str) : outcome (list (list str)) :=
  reader_rows (S (length lines)) d lines.

(** ** Writer *)

(** The characters that make the writer quote a field. *)
Definition special (d : Dialect) (c : char) : bool :=
  (c =? delimiter d) || (c =? quotechar d)
  || existsb (N.eqb c) (lineterminator d).

(** [join_append_data]: the characters of one field, with every quote
    character doubled, and whether the field has to be quoted.  Without
    [doublequote] a quote character would need the escape character, and
    there is none. *)

Fixpoint join_append_data (d : Dialect) (quoted : bool) (f : str)
  : outcome (bool * str) :=
  match f with
  | [] => Ok (quoted, [])
  | c :: f' =>
      if special d c
      then if (c =? quotechar d) && negb (doublequote d)
           then Raise (CsvError (lit "need to escape, but no escapechar set"))
           else match join_append_data d true f' with
                | Ok (q, body) =>
                    Ok (q, (if c =? quotechar d then [quotechar d; c] else [c]) ++ body)
                | Raise e => Raise e
                end
      else match join_append_data d quoted f' with
           | Ok (q, body) => Ok (q, c :: body)
           | Raise e => Raise e
           end
  end.

Definition join_append (d : Dialect) (quoted : bool) (f : str) : outcome str :=
  match join_append_data d quoted f with
  | Ok (true, body) => Ok ([quotechar d] ++ body ++ [quotechar d])
  | Ok (false, body) => Ok body
  | Raise e => Raise e
  end.

(** The fields of a record, separated by the delimiter. *)
Fixpoint join_fields (d : Dialect) (first : bool) (row : list str) : outcome str :=
  match row with
  | [] => Ok []
  | f :: row' =>
      match join_append d false f with
      | Raise e => Raise e
      | Ok s =>
          match join_fields d false row' with
          | Raise e => Raise e
          | Ok s' => Ok ((if first then [] else [delimiter d]) ++ s ++ s')
          end
      end
  end.

(** [writer.writerow(row)]: the line handed to the file's [write].  A
    record made of one empty field is written as an empty quoted field. *)
Definition writerow (d : Dialect) (row : list str) : outcome str :=
  match join_fields d true row with
  | Raise e => Raise e
  | Ok rec =>
      let rec' :=
        match row, rec with
        | _ :: _, [] => [quotechar d; quotechar d]
        | _, _ => rec
        end in
      Ok (rec' ++ lineterminator d)
  end.

End csv.

(* ===================================================================== *)
(** * The [requests] module *)
(* ===================================================================== *)

Module requests.

Local Open Scope Z_scope.

Record Response := {
  status_code : Z;
  reason : str;
  url : str;
  text : str
}.

Definition http_error_msg (kind : string) (r : Response) : str :=
  str_of_int (status_code r) ++ lit kind ++ reason r
  ++ lit " for url: " ++ url r.

(** [Response.raise_for_status]: raises for the 4xx and 5xx status codes,
    and for no other. *)
Definition raise_for_status (r : Response) : outcome unit :=
  if (400 <=? status_code r) && (status_code r <? 500)
  then Raise (HTTPError (http_error_msg " Client Error: " r))
  else if (500 <=? status_code r) && (status_code r <? 600)
  then Raise (HTTPError (http_error_msg " Server Error: " r))
  else Ok tt.

End requests.

(* ===================================================================== *)
(** * Effects: the environment, the trace, the monad *)
(* ===================================================================== *)

(** What a run does to the outside world, in order. *)
Inductive event :=
| Stderr (line : str)                 (* print(line, file=sys.stderr) *)
| HttpGet (url : str) (timeout : Z)   (* requests.get(url, timeout=...) *)
| FileOpened (path : str)             (* open(path, "w"): created or emptied *)
| FileWritten (path : str) (data : str).  (* f.write(data) *)

Definition trace := list event.

(** What the outside world answers.
    - [http_get url]: the final response of the GET, or the exception that
      [requests.get] raises;
    - [open_error path]: [None] when [path] can be opened for writing,
      otherwise the message of the [OSError];
    - [read_file path]: the text of an existing file. *)
Record Env := {
  http_get : str -> outcome requests.Response;
  open_error : str -> option str;
  read_file : str -> option str
}.

Definition M (A : Type) : Type := Env -> trace -> outcome A * trace.

Definition ret {A} (a : A) : M A := fun _ tr => (Ok a, tr).

Definition bind {A B} (c : M A) (k : A -> M B) : M B :=
  fun env tr =>
    match c env tr with
    | (Ok a, tr') => k a env tr'
    | (Raise e, tr') => (Raise e, tr')
    end.

Definition raise {A} (e : exn) : M A := fun _ tr => (Raise e, tr).

Definition lift {A} (o : outcome A) : M A := fun _ tr => (o, tr).

Definition emit (ev : event) : M unit := fun _ tr => (Ok tt, tr ++ [ev]).

Notation "x <- c1 ;; c2" := (bind c1 (fun x => c2))
  (at level 61, c1 at next level, right associativity).
Notation "c1 ;; c2" := (bind c1 (fun _ => c2))
  (at level 61, right associativity).

(** [try: body  except RequestException: h1  except Exception: h2]. *)
Definition try_except {A} (body : M A) (on_request on_exception : exn -> M A) : M A :=
  fun env tr =>
    match body env tr with
    | (Ok a, tr') => (Ok a, tr')
    | (Raise e, tr') =>
        if is_RequestException e then on_request e env tr'
        else if is_Exception e then on_exception e env tr'
        else (Raise e, tr')
    end.

(** [[f(x) for x in l]], stopping at the first exception. *)
Fixpoint traverse {A B} (f : A -> outcome B) (l : list A) : outcome (list B) :=
  match l with
  | [] => Ok []
  | x :: l' =>
      match f x with
      | Raise e => Raise e
      | Ok y =>
          match traverse f l' with
          | Raise e => Raise e
          | Ok ys => Ok (y :: ys)
          end
      end
  end.

Definition print_stderr (line : str) : M unit := emit (Stderr line).

Definition sys_exit {A} (code : Z) : M A := raise (SystemExit code).

(** [open(path, "w", ...)]. *)
Definition open_w (path : str) : M unit :=
  fun env tr =>
    match open_error env path with
    | None => (Ok tt, tr ++ [FileOpened path])
    | Some msg => (Raise (OSError msg), tr)
    end.

Definition file_write (path data : str) : M unit := emit (FileWritten path data).

(** [open(path, "r", ...).read()]. *)
Definition open_read (path : str) : M str :=
  fun env tr =>
    match read_file env path with
    | Some s => (Ok s, tr)
    | None => (Raise (OSError (lit "No such file or directory")), tr)
    end.

Definition requests_get (url : str) (timeout : Z) : M requests.Response :=
  emit (HttpGet url timeout) ;; fun env tr => (http_get env url, tr).

(** The lines of a text, as a file opened with [newline=""] yields them: a
    line ends after LF, after CR LF, and after a CR that no LF follows, and
    keeps its ending.  [cur] is the line under construction. *)
Fixpoint lines_from (cur : str) (t : str) : list str :=
  match t with
  | [] => match cur with [] => [] | _ => [cur] end
  | c :: t' =>
      if (c =? LF)%N then (cur ++ [c]) :: lines_from [] t'
      else if (c =? CR)%N
      then match t' with
           | c' :: t'' =>
               if (c' =? LF)%N then (cur ++ [c; c']) :: lines_from [] t''
               else (cur ++ [c]) :: lines_from [] t'
           | [] => [cur ++ [c]]
           end
      else lines_from (cur ++ [c]) t'
  end.

Definition splitlines (t : str) : list str := lines_from [] t.

(** The text of the file [path] after the events of [tr]; [None] when the
    run did not open it. *)
Definition file_step (path : str) (cur : option str) (ev : event) : option str :=
  match ev with
  | FileOpened p => if str_eqb p path then Some [] else cur
  | FileWritten p data =>
      if str_eqb p path then option_map (fun s => s ++ data) cur else cur
  | _ => cur
  end.

Definition file_content (tr : trace) (path : str) : option str :=
  fold_left (file_step path) tr None.

(** The URLs requested during [tr]. *)
Definition http_requests (tr : trace) : list str :=
  flat_map (fun ev => match ev with HttpGet u _ => [u] | _ => [] end) tr.

(* ===================================================================== *)
(** * The program: [sql2csv.py] *)
(* ===================================================================== *)

Definition HEADERS : list str := map lit [
  "Field ID"; "X"; "Y"; "Tribe"; "Village ID"; "Village name";
  "Player ID"; "Player name"; "Alliance ID"; "Alliance Tag";
  "Population"; "Region"; "Capital"; "City"; "Harbor"; "Victory points"
]%string.

(** The leading literal of the pattern. *)
Definition KEYWORD : str := lit "INSERT INTO `x_world` VALUES".

(** [re.compile(r"INSERT INTO `x_world` VALUES\s*\((.*?)\);", re.IGNORECASE)]:
    the pattern, and the flag it is matched with. *)
Definition INSERT_PATTERN : re.pattern :=
  re.literals KEYWORD
  ++ [re.MaxRepeat re.CategorySpace; re.One (re.Literal 40%N);
      re.MarkOpen; re.MinRepeat re.Any; re.MarkClose;
      re.One (re.Literal 41%N); re.One (re.Literal 59%N)].

Definition IGNORECASE : bool := true.

Definition fetch_sql (url : str) (timeout : Z) : M str :=
  resp <- requests_get url timeout ;;
  lift (requests.raise_for_status resp) ;;
  ret (requests.text resp).

Definition extract_value_strings (sql_text : str) : list str :=
  re.findall IGNORECASE INSERT_PATTERN sql_text.

(** The dialect of [csv.reader(..., delimiter=",", quotechar="'")]. *)
Definition record_dialect : csv.Dialect := {|
  csv.delimiter := 44%N;
  csv.quotechar := 39%N;
  csv.doublequote := true;
  csv.skipinitialspace := false;
  csv.lineterminator := [CR; LF];
  csv.strict := false
|}.

(** [l[:k]]. *)
Definition slice_to {A} (l : list A) (k : Z) : list A :=
  if (k <? 0)%Z then firstn (Z.to_nat (Z.of_nat (length l) + k)) l
  else firstn (Z.to_nat k) l.

Definition parse_record (record_str : str) (expected_cols : Z) : outcome (list str) :=
  match fst (csv.reader_next record_dialect [record_str]) with
  | Raise e => Raise e
  | Ok fields =>
      if (expected_cols <? Z.of_nat (length fields))%Z
      then Ok (slice_to fields expected_cols)
      else if (Z.of_nat (length fields) <? expected_cols)%Z
      then Ok (fields ++ repeat [] (Z.to_nat (expected_cols - Z.of_nat (length fields))))
      else Ok fields
  end.

Definition writer_writerow (path : str) (row : list str) : M unit :=
  line <- lift (csv.writerow csv.excel row) ;;
  file_write path line.

Fixpoint writer_writerows (path : str) (rows : list (list str)) : M unit :=
  match rows with
  | [] => ret tt
  | row :: rows' => writer_writerow path row ;; writer_writerows path rows'
  end.

Definition write_csv (records : list (list str)) (headers : list str)
           (output_path : str) : M unit :=
  open_w output_path ;;
  writer_writerow output_path headers ;;
  writer_writerows output_path records.

Definition URL : str := lit "https://ts21.x2.international.travian.com/map.sql".
Definition output_file : str := lit "map.csv".
Definition from_file : bool := false.
Definition map_sql : str := lit "map.sql".

Definition main_body : M unit :=
  sql_text <-
    (if from_file
     then
       print_stderr (lit "Reading SQL from map.sql" ++ [ELLIPSIS]) ;;
       open_read map_sql
     else
       print_stderr (lit "Fetching SQL from " ++ URL ++ [ELLIPSIS]) ;;
       sql_text <- fetch_sql URL 10%Z ;;
       print_stderr (lit "Saving fetched SQL to map.sql" ++ [ELLIPSIS]) ;;
       open_w map_sql ;;
       file_write map_sql sql_text ;;
       ret sql_text) ;;
  print_stderr (lit "Extracting INSERT records" ++ [ELLIPSIS]) ;;
  let raw_records := extract_value_strings sql_text in
  (match raw_records with
   | [] =>
       print_stderr (lit "No `x_world` INSERTs found in the SQL!") ;;
       sys_exit 1%Z
   | _ => ret tt
   end) ;;
  print_stderr (lit "Parsing " ++ str_of_int (Z.of_nat (length raw_records))
                ++ lit " records" ++ [ELLIPSIS]) ;;
  parsed <- lift (traverse (fun rec => parse_record rec (Z.of_nat (length HEADERS)))
                           raw_records) ;;
  print_stderr (lit "Writing CSV to " ++ output_file ++ [ELLIPSIS]) ;;
  write_csv parsed HEADERS output_file ;;
  print_stderr (lit "Done!").

Definition main : M unit :=
  try_except main_body
    (fun e => print_stderr (lit "Error fetching SQL: " ++ exn_str e) ;; sys_exit 1%Z)
    (fun e => print_stderr (lit "Unexpected error: " ++ exn_str e) ;; sys_exit 1%Z).

(** Running the script: the exit status of the interpreter and the trace.
    [SystemExit(code)] gives [code]; any other exception that escapes gives
    1; a normal end gives 0. *)
Definition run (env : Env) : Z * trace :=
  match main env [] with
  | (Ok _, tr) => (0%Z, tr)
  | (Raise (SystemExit code), tr) => (code, tr)
  | (Raise _, tr) => (1%Z, tr)
  end.

(* ===================================================================== *)
(** * The shapes of input the properties speak about *)
(* ===================================================================== *)

(** ** INSERT statements as the pattern sees them

    A statement is the keyword in some letter case, optional white space, and
    a parenthesised value list closed by [);]. *)
Record statement := {
  st_keyword : str;
  st_space : str;
  st_values : str
}.

Definition render (s : statement) : str :=
  st_keyword s ++ st_space s ++ [40%N] ++ st_values s ++ [41%N; 59%N].

(** The text is the keyword up to the case of its letters. *)
Definition keyword_variant (k : str) : bool :=
  (length k =? length KEYWORD)%nat && re.literal_prefix IGNORECASE KEYWORD k.

(** The keyword occurs at the head of the text. *)
Definition keyword_at (t : str) : bool := re.literal_prefix IGNORECASE KEYWORD t.

Definition single_line (v : str) : bool := forallb (fun c => negb (c =? LF)%N) v.

(** The text starts with [);]. *)
Definition closes (t : str) : bool :=
  match t with
  | c1 :: c2 :: _ => (c1 =? 41)%N && (c2 =? 59)%N
  | _ => false
  end.

(** [);] occurs somewhere in the text. *)
Fixpoint has_close (v : str) : bool :=
  match v with
  | [] => false
  | _ :: v' => closes v || has_close v'
  end.

(** A well-formed statement: a keyword variant, white space, and a value list
    on one line that holds no [);] of its own. *)
Definition well_formed (s : statement) : bool :=
  keyword_variant (st_keyword s)
  && forallb re.is_space (st_space s)
  && single_line (st_values s)
  && negb (has_close (st_values s)).

(** A dump: statements, each preceded by some other text, and a last piece of
    other text. *)
Definition dump := list (str * statement).

Fixpoint dump_text (items : dump) (tail : str) : str :=
  match items with
  | [] => tail
  | (gap, s) :: more => gap ++ render s ++ dump_text more tail
  end.

(** No occurrence of the keyword begins inside [gap], where [rest] is the
    text that follows it. *)
Fixpoint quiet (gap rest : str) : bool :=
  match gap with
  | [] => true
  | _ :: gap' => negb (keyword_at (gap ++ rest)) && quiet gap' rest
  end.

(** A text containing well-formed statements: every statement is well formed
    and the keyword begins nowhere else. *)
Fixpoint well_formed_dump (items : dump) (tail : str) : bool :=
  match items with
  | [] => quiet tail []
  | (gap, s) :: more =>
      quiet gap (render s ++ dump_text more tail)
      && well_formed s
      && well_formed_dump more tail
  end.

(** ** Value lists as the reader sees them *)

(** A value is written bare or between single quotes. *)
Inductive value :=
| Bare (f : str)
| Quoted (f : str).

Definition content (v : value) : str :=
  match v with Bare f | Quoted f => f end.

Definition value_text (v : value) : str :=
  match v with
  | Bare f => f
  | Quoted f => [39%N] ++ f ++ [39%N]
  end.

(** A bare value holds no delimiter, no quote and no line break; a quoted
    value holds no quote (it may hold delimiters and line breaks). *)
Definition plain (f : str) : bool :=
  forallb (fun c => negb ((c =? 44) || (c =? 39) || (c =? LF) || (c =? CR))%N) f.

Definition no_quote (f : str) : bool :=
  forallb (fun c => negb (c =? 39)%N) f.

Definition value_ok (v : value) : bool :=
  match v with
  | Bare f => plain f
  | Quoted f => no_quote f
  end.

(** The text holds no line break. *)
Definition no_linebreak (s : str) : bool :=
  forallb (fun c => negb ((c =? LF) || (c =? CR))%N) s.

(** The values [pre], each followed by a comma. *)
Definition leading (pre : list value) : str :=
  concat (map (fun v => value_text v ++ [44%N]) pre).

(** The field is within the reader's size limit. *)
Definition fits (f : str) : bool :=
  (N.of_nat (length f) <=? csv.field_limit)%N.

(** ** The output *)

(** How the writer renders a field in the default dialect: with every
    double quote doubled, and between double quotes when it holds a
    delimiter, a quote or a line break. *)
Definition doubled (f : str) : str :=
  flat_map (fun c => if (c =? 34)%N then [34%N; 34%N] else [c]) f.

Definition needs_quotes (f : str) : bool := existsb (csv.special csv.excel) f.

Definition rendered (f : str) : str :=
  if needs_quotes f then [34%N] ++ doubled f ++ [34%N] else f.

(** The line the writer produces for a record. *)
Definition row_line (row : list str) : str :=
  match csv.writerow csv.excel row with
  | Ok line => line
  | Raise _ => []
  end.

(** What the handlers of [main] make of an exception [e] raised after the
    events [tr]: the exit status and the final trace. *)
Definition handled (e : exn) (tr : trace) : Z * trace :=
  if is_RequestException e
  then (1%Z, tr ++ [Stderr (lit "Error fetching SQL: " ++ exn_str e)])
  else if is_Exception e
  then (1%Z, tr ++ [Stderr (lit "Unexpected error: " ++ exn_str e)])
  else match e with
       | SystemExit code => (code, tr)
       | _ => (1%Z, tr)
       end.

(** The events of a run up to the request. *)
Definition fetch_trace : trace :=
  [Stderr (lit "Fetching SQL from " ++ URL ++ [ELLIPSIS]); HttpGet URL 10%Z].

(** The events of saving the fetched text and announcing the extraction. *)
Definition save_trace (sql_text : str) : trace :=
  [Stderr (lit "Saving fetched SQL to map.sql" ++ [ELLIPSIS]);
   FileOpened map_sql; FileWritten map_sql sql_text;
   Stderr (lit "Extracting INSERT records" ++ [ELLIPSIS])].

(** The events of writing the CSV. *)
Definition csv_trace (path : str) (headers : list str) (records : list (list str))
  : trace :=
  FileOpened path :: FileWritten path (row_line headers)
  :: map (fun row => FileWritten path (row_line row)) records.

(** The header line. *)
Definition HEADER_LINE : str :=
  lit "Field ID,X,Y,Tribe,Village ID,Village name,Player ID,Player name,Alliance ID,Alliance Tag,Population,Region,Capital,City,Harbor,Victory points"
  ++ [CR; LF].

(** ** Sample inputs *)

Definition sample_response (status : Z) (body : str) : requests.Response := {|
  requests.status_code := status;
  requests.reason := lit "OK";
  requests.url := URL;
  requests.text := body
|}.

(** A world where the GET is answered with [status] and [body] and every
    file can be written. *)
Definition online (status : Z) (body : str) : Env := {|
  http_get := fun _ => Ok (sample_response status body);
  open_error := fun _ => None;
  read_file := fun _ => None
|}.

(** A world where the GET raises [e]. *)
Definition offline (e : exn) : Env := {|
  http_get := fun _ => Raise e;
  open_error := fun _ => None;
  read_file := fun _ => None
|}.

(** A world where the GET succeeds and no file can be opened. *)
Definition read_only (body : str) : Env := {|
  http_get := fun _ => Ok (sample_response 200 body);
  open_error := fun _ => Some (lit "[Errno 13] Permission denied");
  read_file := fun _ => None
|}.

Definition sample_statement_1 : statement := {|
  st_keyword := lit "INSERT INTO `x_world` VALUES";
  st_space := lit " ";
  st_values := lit "1,-200,200,2,31688,'006',215,'Che,ster',0,'',83,NULL,FALSE,NULL,NULL,NULL"
|}.

Definition sample_statement_2 : statement := {|
  st_keyword := lit "insert into `x_world` values";
  st_space := [];
  st_values := lit "2,-199,200,3,31689,'A b',7,'x',4,'T',12,NULL,TRUE,NULL,NULL,NULL"
|}.

Definition sample_dump : dump :=
  [([], sample_statement_1); ([LF], sample_statement_2)].

Definition sample_sql : str := dump_text sample_dump [LF].

(** The records of [sample_sql]. *)
Definition sample_records : list (list str) :=
  [map lit ["1"; "-200"; "200"; "2"; "31688"; "006"; "215"; "Che,ster"; "0";
            ""; "83"; "NULL"; "FALSE"; "NULL"; "NULL"; "NULL"]%string;
   map lit ["2"; "-199"; "200"; "3"; "31689"; "A b"; "7"; "x"; "4";
            "T"; "12"; "NULL"; "TRUE"; "NULL"; "NULL"; "NULL"]%string].

(** The value string [1\r2]. *)
Definition stray_cr : str := [49; 13; 50]%N.


(** A statement whose quoted value holds [);] and then a line break. *)
Definition multi_line_statement : statement := {|
  st_keyword := KEYWORD;
  st_space := lit " ";
  st_values := lit "1,'a);" ++ [LF] ++ lit "b'"
|}.

(* ===================================================================== *)
(** * Notions used in the proofs *)
(* ===================================================================== *)


(** Every field the reader holds is within the size limit. *)
Definition within (r : csv.ReaderObj) : Prop :=
  fits (csv.field r) = true /\ Forall (fun f => fits f = true) (csv.fields r).

(** The end of the pattern, [)] of the group followed by [);]. *)
Definition closing : re.pattern :=
  [re.MarkClose; re.One (re.Literal 41%N); re.One (re.Literal 59%N)].

(** The part of the pattern after the keyword. *)
Definition after_keyword : re.pattern :=
  [re.MaxRepeat re.CategorySpace; re.One (re.Literal 40%N);
   re.MarkOpen; re.MinRepeat re.Any] ++ closing.

Definition extends (r r' : csv.ReaderObj) : Prop :=
  exists ext, csv.fields r' = csv.fields r ++ ext.

(** The reader stands where a field may begin. *)
Definition at_start (r : csv.ReaderObj) : Prop :=
  (csv.state r = csv.START_RECORD \/ csv.state r = csv.START_FIELD)
  /\ csv.field r = [].

(** Events on other files and on standard error leave the file as it is. *)
Definition touches (path : str) (ev : event) : bool :=
  match ev with
  | FileOpened p | FileWritten p _ => str_eqb p path
  | _ => false
  end.

Definition parsing_line (raws : list (list N)) : list N :=
  lit "Parsing " ++ str_of_int (Z.of_nat (length raws)) ++ lit " records" ++ [ELLIPSIS].

Definition writing_line : list N := lit "Writing CSV to " ++ output_file ++ [ELLIPSIS].

Definition no_inserts_line : list N := lit "No `x_world` INSERTs found in the SQL!".

(** The exit status and the trace of a run, in direct style. *)
Definition run_cases (env : Env) : Z * trace :=
  match http_get env URL with
  | Raise e => handled e fetch_trace
  | Ok resp =>
      match requests.raise_for_status resp with
      | Raise e => handled e fetch_trace
      | Ok _ =>
          let sql_text := requests.text resp in
          match open_error env map_sql with
          | Some msg =>
              handled (OSError msg)
                (fetch_trace ++ [Stderr (lit "Saving fetched SQL to map.sql" ++ [ELLIPSIS])])
          | None =>
              let tr := fetch_trace ++ save_trace sql_text in
              match extract_value_strings sql_text with
              | [] => (1%Z, tr ++ [Stderr no_inserts_line])
              | raws =>
                  let tr := tr ++ [Stderr (parsing_line raws)] in
                  match traverse (fun rec => parse_record rec 16%Z) raws with
                  | Raise e => handled e tr
                  | Ok parsed =>
                      let tr := tr ++ [Stderr writing_line] in
                      match open_error env output_file with
                      | Some msg => handled (OSError msg) tr
                      | None =>
                          (0%Z, tr ++ csv_trace output_file HEADERS parsed
                                   ++ [Stderr (lit "Done!")])
                      end
                  end
              end
          end
      end
  end.


(* ===================================================================== *)
(** * Further shapes of input *)
(* ===================================================================== *)

(** ** Fields as they are written in a value string

    A field is written without quotes; or between single quotes, the quotes
    of its content doubled, with possibly more text after the closing quote;
    or after an opening quote that is never closed. *)
Inductive written :=
| Unquoted (f : str)
| InQuotes (f rest : str)
| Unclosed (f : str).

(** Every single quote doubled. *)
Definition doubled_quote (f : str) : str :=
  flat_map (fun c => if (c =? 39)%N then [39; 39]%N else [c]) f.

(** The text of a field in the value string. *)
Definition written_text (w : written) : str :=
  match w with
  | Unquoted f => f
  | InQuotes f rest => [39%N] ++ doubled_quote f ++ [39%N] ++ rest
  | Unclosed f => [39%N] ++ doubled_quote f
  end.

(** The field the text stands for. *)
Definition decoded (w : written) : str :=
  match w with
  | Unquoted f => f
  | InQuotes f rest => f ++ rest
  | Unclosed f => f
  end.

(** Text that neither ends a field nor opens a quoted one: no comma and no
    line break in it, and no quote in the first place. *)
Definition unquoted (f : str) : bool :=
  forallb (fun c => negb ((c =? 44) || (c =? LF) || (c =? CR))%N) f
  && match f with
     | c :: _ => negb (c =? 39)%N
     | [] => true
     end.

(** Only the last field of a string can be left unclosed. *)
Definition written_ok (last : bool) (w : written) : bool :=
  match w with
  | Unquoted f => unquoted f
  | InQuotes _ rest => unquoted rest
  | Unclosed _ => last
  end.

(** The fields, separated by commas. *)
Fixpoint written_list (ws : list written) : str :=
  match ws with
  | [] => []
  | w :: ws' =>
      match ws' with
      | [] => written_text w
      | _ => written_text w ++ [44%N] ++ written_list ws'
      end
  end.

(** Every field is well written; only the last one may be left unclosed. *)
Fixpoint all_ok (ws : list written) : bool :=
  match ws with
  | [] => true
  | w :: ws' =>
      match ws' with
      | [] => written_ok true w
      | _ => written_ok false w && all_ok ws'
      end
  end.

(** The record of [expected_cols = 16] fields made from parsed fields. *)
Definition sixteen (fields : list str) : list str :=
  firstn 16 (fields ++ repeat [] (16 - length fields)).

(** ** Statements with several rows

    The rows of an extended INSERT, [(row),(row),...], as the text between
    the first parenthesis and the closing [);]. *)
Fixpoint rows_text (rows : list str) : str :=
  match rows with
  | [] => []
  | row :: rows' =>
      match rows' with
      | [] => row
      | _ => row ++ lit "),(" ++ rows_text rows'
      end
  end.

(** ** More sample inputs *)


(** ** Text with characters left out *)

(** [a] is [b] with some of its elements left out. *)
Inductive Subseq {A : Type} : list A -> list A -> Prop :=
| Subseq_nil : Subseq [] []
| Subseq_keep (x : A) (a b : list A) : Subseq a b -> Subseq (x :: a) (x :: b)
| Subseq_skip (y : A) (a b : list A) : Subseq a b -> Subseq a (y :: b).

(** ** The switch [from_file]

    [main] sets the local variable [from_file] to [False] in the line before
    its [try] block, and the block tests it.  Here the body, the handlers
    and the run are given with the switch as a parameter; at [from_file]
    they are [main_body], [main] and [run]. *)
Definition main_body_with (from_file : bool) : M unit :=
  sql_text <-
    (if from_file
     then
       print_stderr (lit "Reading SQL from map.sql" ++ [ELLIPSIS]) ;;
       open_read map_sql
     else
       print_stderr (lit "Fetching SQL from " ++ URL ++ [ELLIPSIS]) ;;
       sql_text <- fetch_sql URL 10%Z ;;
       print_stderr (lit "Saving fetched SQL to map.sql" ++ [ELLIPSIS]) ;;
       open_w map_sql ;;
       file_write map_sql sql_text ;;
       ret sql_text) ;;
  print_stderr (lit "Extracting INSERT records" ++ [ELLIPSIS]) ;;
  let raw_records := extract_value_strings sql_text in
  (match raw_records with
   | [] =>
       print_stderr (lit "No `x_world` INSERTs found in the SQL!") ;;
       sys_exit 1%Z
   | _ => ret tt
   end) ;;
  print_stderr (lit "Parsing " ++ str_of_int (Z.of_nat (length raw_records))
                ++ lit " records" ++ [ELLIPSIS]) ;;
  parsed <- lift (traverse (fun rec => parse_record rec (Z.of_nat (length HEADERS)))
                           raw_records) ;;
  print_stderr (lit "Writing CSV to " ++ output_file ++ [ELLIPSIS]) ;;
  write_csv parsed HEADERS output_file ;;
  print_stderr (lit "Done!").

Definition main_with (from_file : bool) : M unit :=
  try_except (main_body_with from_file)
    (fun e => print_stderr (lit "Error fetching SQL: " ++ exn_str e) ;; sys_exit 1%Z)
    (fun e => print_stderr (lit "Unexpected error: " ++ exn_str e) ;; sys_exit 1%Z).

Definition run_with (from_file : bool) (env : Env) : Z * trace :=
  match main_with from_file env [] with
  | (Ok _, tr) => (0%Z, tr)
  | (Raise (SystemExit code), tr) => (code, tr)
  | (Raise _, tr) => (1%Z, tr)
  end.


(* ===================================================================== *)
(** * Further notions used in the proofs *)
(* ===================================================================== *)

(** The fields [pre], each followed by a comma. *)
Definition written_leading (pre : list written) : str :=
  concat (map (fun w => written_text w ++ [44%N]) pre).

(** The field with a closing parenthesis written after it. *)
Definition close_paren (w : written) : written :=
  match w with
  | Unquoted f => Unquoted (f ++ [41%N])
  | InQuotes f rest => InQuotes f (rest ++ [41%N])
  | Unclosed f => Unclosed (f ++ [41%N])
  end.



(** The characters the reader has kept so far. *)
Definition kept (r : csv.ReaderObj) : str := concat (csv.fields r) ++ csv.field r.

(** The line of a record without its line terminator. *)
Definition row_body (row : list str) : str :=
  match row with
  | [] => []
  | [[]] => [34%N; 34%N]
  | f :: row' => rendered f ++ concat (map (fun g => 44%N :: rendered g) row')
  end.

(* ===================================================================== *)
(** * The library models on concrete inputs *)
(* ===================================================================== *)

(** Each of these is the result CPython 3.11 gives on the same input. *)

Section ConcreteInputs.
Local Open Scope N_scope.

(** The pattern ignores case, and matching restarts after a match. *)
Example finditer_lower_case :
  re.finditer IGNORECASE INSERT_PATTERN (lit "insert into `x_world` values (1,2);")
  = [(0%nat, lit "1,2")].
Proof. vm_compute. reflexivity. Qed.

Example finditer_two_statements :
  re.finditer IGNORECASE INSERT_PATTERN
    (lit "INSERT INTO `x_world` VALUES ();INSERT INTO `x_world` VALUES (a);")
  = [(0%nat, []); (32%nat, lit "a")].
Proof. vm_compute. reflexivity. Qed.

(** [\s*] takes line ends, tabs and U+00A0; a second parenthesis does not
    start a match. *)
Example finditer_white_space :
  re.finditer IGNORECASE INSERT_PATTERN
    (lit "INSERT INTO `x_world` VALUES" ++ [LF; 9; 160] ++ lit "(1);(2);")
  = [(0%nat, lit "1")].
Proof. vm_compute. reflexivity. Qed.

(** The dotless i (U+0131) and the long s (U+017F) match [I] and [S]. *)
Example finditer_case_fixes :
  re.finditer IGNORECASE INSERT_PATTERN
    ([305; 110; 383] ++ lit "ert into `x_world` value" ++ [383] ++ lit "(1);")
  = [(0%nat, lit "1")].
Proof. vm_compute. reflexivity. Qed.

(** [.] does not take a line feed; the blanks of the keyword are exact. *)
Example finditer_line_feed :
  re.finditer IGNORECASE INSERT_PATTERN
    (lit "INSERT INTO `x_world` VALUES (1" ++ [LF] ++ lit ");") = [].
Proof. vm_compute. reflexivity. Qed.

Example finditer_two_blanks :
  re.finditer IGNORECASE INSERT_PATTERN (lit "INSERT  INTO `x_world` VALUES (1);")
  = [].
Proof. vm_compute. reflexivity. Qed.

(** The reader: a quoted comma, text after a closing quote, a doubled quote,
    a quote after a blank, a line feed between quotes, and the empty line. *)
Example reader_quoted_comma :
  fst (csv.reader_next record_dialect [lit "1,'a,b',c"])
  = Ok [lit "1"; lit "a,b"; lit "c"].
Proof. vm_compute. reflexivity. Qed.

Example reader_after_quote :
  fst (csv.reader_next record_dialect [lit "'ab'cd,e"]) = Ok [lit "abcd"; lit "e"].
Proof. vm_compute. reflexivity. Qed.

Example reader_doubled_quote :
  fst (csv.reader_next record_dialect [lit "'it''s'"]) = Ok [lit "it's"].
Proof. vm_compute. reflexivity. Qed.

Example reader_blank_before_quote :
  fst (csv.reader_next record_dialect [lit "1, 'a,b'"])
  = Ok [lit "1"; lit " 'a"; lit "b'"].
Proof. vm_compute. reflexivity. Qed.

Example reader_quoted_line_feed :
  fst (csv.reader_next record_dialect [lit "'a" ++ [LF] ++ lit "b'"])
  = Ok [lit "a" ++ [LF] ++ lit "b"].
Proof. vm_compute. reflexivity. Qed.

Example reader_empty_line :
  fst (csv.reader_next record_dialect [[]]) = Ok [].
Proof. vm_compute. reflexivity. Qed.

(** The writer quotes what holds a delimiter, a quote or a line end, and a
    lone empty field. *)
Example writerow_quoting :
  csv.writerow csv.excel
    [lit "a,b"; [99; 34; 100]; []; lit "x y"; lit "l" ++ [LF] ++ lit "m"]
  = Ok ([34] ++ lit "a,b" ++ [34; 44; 34; 99; 34; 34; 100; 34; 44; 44]
        ++ lit "x y," ++ [34; 108; LF; 109; 34; CR; LF]).
Proof. vm_compute. reflexivity. Qed.

Example writerow_lone_empty_field :
  csv.writerow csv.excel [[]] = Ok [34; 34; CR; LF].
Proof. vm_compute. reflexivity. Qed.

(** The lines of a file opened with [newline=''] keep their line ends. *)
Example splitlines_line_ends :
  splitlines [97; CR; LF; 98; CR; 99; LF; 100]
  = [[97; CR; LF]; [98; CR]; [99; LF]; [100]].
Proof. vm_compute. reflexivity. Qed.

(** A quoted field may span lines of the file. *)
Example reader_all_spanning_field :
  csv.reader_all csv.excel
    (splitlines ([97; 44; 34; 98; CR; LF; 99; 34; CR; LF; 100; CR; LF]))
  = Ok [[lit "a"; [98; CR; LF; 99]]; [lit "d"]].
Proof. vm_compute. reflexivity. Qed.

End ConcreteInputs.

(* ===================================================================== *)
(** * Facts about the matcher *)
(* ===================================================================== *)

Section MatcherFacts.
Variable ic : bool.

Lemma consume_idle m c : re.recording m = false -> re.consume m c = m.
Proof. unfold re.consume. now intros ->. Qed.

Lemma consume_all_idle m s : re.recording m = false -> re.consume_all m s = m.
Proof.
  unfold re.consume_all. revert m.
  induction s as [|c s IH]; intros m Hm; simpl; [reflexivity|].
  rewrite consume_idle by assumption. now apply IH.
Qed.

Lemma consume_recording m c :
  re.recording m = true ->
  re.consume m c = {| re.recording := true; re.group1 := re.group1 m ++ [c] |}.
Proof. unfold re.consume. now intros ->. Qed.

Lemma consume_all_recording m s :
  re.recording m = true ->
  re.consume_all m s = {| re.recording := true; re.group1 := re.group1 m ++ s |}.
Proof.
  unfold re.consume_all. revert m.
  induction s as [|c s IH]; intros m Hm; simpl.
  - rewrite app_nil_r. destruct m; simpl in *; now subst.
  - rewrite consume_recording by assumption.
    rewrite IH by reflexivity. simpl. now rewrite <- app_assoc.
Qed.

(** A run of literals is a prefix test. *)
Lemma exec_literals s p st adv m t :
  re.recording m = false ->
  re.exec ic (re.literals s ++ p) st adv m t =
  if re.literal_prefix ic s t
  then re.exec ic p st adv m (skipn (length s) t)
  else None.
Proof.
  intros Hm. revert t.
  induction s as [|l s IH]; intros t; simpl; [reflexivity|].
  destruct t as [|c t]; [reflexivity|]. simpl.
  destruct (re.literal_match ic l c); simpl; [|reflexivity].
  rewrite consume_idle by assumption. apply IH.
Qed.

Lemma literal_prefix_app s k t :
  length k = length s ->
  re.literal_prefix ic s (k ++ t) = re.literal_prefix ic s k.
Proof.
  revert k. induction s as [|l s IH]; intros [|c k] Hlen; simpl in *;
    try reflexivity; try discriminate.
  now rewrite IH by lia.
Qed.

Lemma literal_prefix_split s t :
  re.literal_prefix ic s t = true ->
  length (firstn (length s) t) = length s
  /\ re.literal_prefix ic s (firstn (length s) t) = true.
Proof.
  revert t. induction s as [|l s IH]; intros t H; simpl in *; [now split|].
  destruct t as [|c t]; [discriminate|].
  apply andb_true_iff in H as [H1 H2].
  destruct (IH _ H2) as [IH1 IH2]. simpl. rewrite H1, IH2. split; [now f_equal|reflexivity].
Qed.

(** Greedy repetition over a run of fitting characters that ends where the
    continuation has its only chance. *)
Lemma max_repeat_run a k m ws t :
  forallb (re.atom_match ic a) ws = true ->
  match t with [] => true | c :: _ => negb (re.atom_match ic a c) end = true ->
  (forall m' c t', re.atom_match ic a c = true -> k m' (c :: t') = None) ->
  re.max_repeat ic a k m (ws ++ t) = k (re.consume_all m ws) t.
Proof.
  intros Hws Ht Hk. revert m.
  induction ws as [|w ws IH]; intros m; simpl.
  - destruct t as [|c t]; simpl; [reflexivity|].
    apply negb_true_iff in Ht. now rewrite Ht.
  - simpl in Hws. apply andb_true_iff in Hws as [Hw Hws].
    rewrite Hw, (IH Hws).
    change (re.consume_all m (w :: ws)) with (re.consume_all (re.consume m w) ws).
    destruct (k (re.consume_all (re.consume m w) ws) t) eqn:E; [reflexivity|].
    now apply Hk.
Qed.

Lemma max_repeat_inv a k m t r :
  re.max_repeat ic a k m t = Some r ->
  exists ws t', t = ws ++ t'
    /\ forallb (re.atom_match ic a) ws = true
    /\ k (re.consume_all m ws) t' = Some r.
Proof.
  revert m. induction t as [|c t IH]; intros m; simpl.
  - intros H. now exists [], [].
  - destruct (re.atom_match ic a c) eqn:Hc.
    + destruct (re.max_repeat ic a k (re.consume m c) t) eqn:E.
      * intros [= <-]. destruct (IH _ E) as (ws & t' & -> & Hws & Hk).
        exists (c :: ws), t'. simpl. now rewrite Hc, Hws.
      * intros H. now exists [], (c :: t).
    + intros H. now exists [], (c :: t).
Qed.

(** Lazy repetition stops at the first place where the continuation
    succeeds. *)
Lemma min_repeat_run a k m v t r :
  forallb (re.atom_match ic a) v = true ->
  (forall v1 v2, v = v1 ++ v2 -> v2 <> [] ->
                 k (re.consume_all m v1) (v2 ++ t) = None) ->
  k (re.consume_all m v) t = Some r ->
  re.min_repeat ic a k m (v ++ t) = Some r.
Proof.
  revert m. induction v as [|c v IH]; intros m Hv Hk Hr.
  - simpl in *. destruct t; simpl; now rewrite Hr.
  - simpl in Hv. apply andb_true_iff in Hv as [Hc Hv].
    pose proof (Hk [] (c :: v) eq_refl ltac:(discriminate)) as H0.
    change (k m (c :: v ++ t) = None) in H0.
    cbn [app re.min_repeat]. rewrite H0, Hc.
    apply IH; [assumption| |exact Hr].
    intros v1 v2 -> Hne. apply (Hk (c :: v1) v2 eq_refl Hne).
Qed.

Lemma min_repeat_inv a k m t r :
  re.min_repeat ic a k m t = Some r ->
  exists v t', t = v ++ t'
    /\ forallb (re.atom_match ic a) v = true
    /\ k (re.consume_all m v) t' = Some r
    /\ (forall v1 v2, v = v1 ++ v2 -> v2 <> [] ->
                      k (re.consume_all m v1) (v2 ++ t') = None).
Proof.
  revert m. induction t as [|c t IH]; intros m; simpl.
  - destruct (k m []) eqn:E; [|discriminate]. intros [= <-].
    exists [], []. repeat split; try assumption.
    intros v1 v2 H Hne. symmetry in H. apply app_eq_nil in H as [_ ->]. congruence.
  - destruct (k m (c :: t)) eqn:E.
    + intros [= <-]. exists [], (c :: t). repeat split; try assumption.
      intros v1 v2 H Hne. symmetry in H. apply app_eq_nil in H as [_ ->]. congruence.
    + destruct (re.atom_match ic a c) eqn:Hc; [|discriminate].
      intros H. destruct (IH _ H) as (v & t' & -> & Hv & Hk & Hmin).
      exists (c :: v), t'. simpl. rewrite Hc, Hv. repeat split; try assumption.
      intros [|c1 v1] v2; simpl.
      * intros <- _. exact E.
      * intros [= <- ->] Hne. now apply Hmin.
Qed.

(** Lazy repetition fails when the continuation fails everywhere up to a
    character that does not fit. *)
Lemma min_repeat_stuck a k m v t :
  forallb (re.atom_match ic a) v = true ->
  match t with [] => true | c :: _ => negb (re.atom_match ic a c) end = true ->
  (forall v1 v2, v = v1 ++ v2 -> k (re.consume_all m v1) (v2 ++ t) = None) ->
  re.min_repeat ic a k m (v ++ t) = None.
Proof.
  revert m. induction v as [|c v IH]; intros m Hv Ht Hk.
  - specialize (Hk [] [] eq_refl). simpl in *.
    destruct t as [|c t]; simpl; rewrite Hk; [reflexivity|].
    apply negb_true_iff in Ht. now rewrite Ht.
  - simpl in Hv. apply andb_true_iff in Hv as [Hc Hv].
    pose proof (Hk [] (c :: v) eq_refl) as H0.
    change (k m (c :: v ++ t) = None) in H0.
    cbn [app re.min_repeat]. rewrite H0, Hc.
    apply IH; try assumption.
    intros v1 v2 ->. apply (Hk (c :: v1) v2 eq_refl).
Qed.

End MatcherFacts.

(* ===================================================================== *)
(** * Facts about the INSERT pattern *)
(* ===================================================================== *)

(** Under IGNORECASE a character below the letters only fits itself. *)
Lemma literal_match_plain (l c : N) :
  (l < 65)%N -> re.literal_match IGNORECASE l c = (c =? l)%N.
Proof.
  intros Hl. unfold re.literal_match, IGNORECASE, re.fixes, re.lower.
  destruct (N.leb_spec 65 l); [lia|]. simpl.
  destruct (N.eqb_spec l 304); [lia|].
  destruct (N.eqb_spec l 8490); [lia|].
  destruct (N.eqb_spec l 105); [lia|].
  destruct (N.eqb_spec l 115); [lia|].
  simpl. rewrite orb_false_r.
  destruct (N.leb_spec 65 c), (N.leb_spec c 90),
    (N.eqb_spec c 304), (N.eqb_spec c 8490); cbn [andb];
    repeat match goal with
           | |- context [N.eqb ?a ?b] => destruct (N.eqb_spec a b)
           end; try reflexivity; lia.
Qed.

Lemma space_not_paren c : re.is_space c = true -> (c =? 40)%N = false.
Proof.
  intros H. destruct (N.eqb_spec c 40) as [->|]; [discriminate H|reflexivity].
Qed.

Lemma exec_closing st adv m t :
  re.exec IGNORECASE closing st adv m t =
  if closes t
  then if adv && (length (skipn 2 t) =? st)%nat then None
       else Some (re.group1 m, skipn 2 t)
  else None.
Proof.
  unfold closing. cbn [re.exec].
  destruct t as [|c1 t]; [reflexivity|].
  cbn [re.atom_match]. rewrite literal_match_plain by lia.
  destruct t as [|c2 t]; cbn [closes skipn].
  - now destruct (c1 =? 41)%N.
  - rewrite literal_match_plain by lia.
    destruct (c1 =? 41)%N, (c2 =? 59)%N; reflexivity.
Qed.

Lemma closes_app v t : closes v = true -> closes (v ++ t) = true.
Proof. destruct v as [|c1 [|c2 v]]; simpl; try discriminate; auto. Qed.

Lemma has_close_suffix v1 v2 t :
  has_close (v1 ++ v2) = false -> v2 <> [] ->
  closes (v2 ++ 41%N :: 59%N :: t) = false.
Proof.
  induction v1 as [|c v1 IH]; simpl.
  - destruct v2 as [|c1 [|c2 v2]]; simpl; try congruence.
    + intros _ _. destruct (c1 =? 41)%N; reflexivity.
    + intros H _. apply orb_false_iff in H as [H _]. exact H.
  - intros H. apply orb_false_iff in H as [_ H]. now apply IH.
Qed.

Lemma no_close_from_suffixes v t :
  (forall v1 v2, v = v1 ++ v2 -> v2 <> [] -> closes (v2 ++ t) = false) ->
  has_close v = false.
Proof.
  induction v as [|c v IH]; intros H; [reflexivity|].
  cbn [has_close]. apply orb_false_iff. split.
  - destruct (closes (c :: v)) eqn:E; [|reflexivity].
    rewrite <- (H [] (c :: v) eq_refl ltac:(discriminate)).
    symmetry. now apply closes_app.
  - apply IH. intros v1 v2 -> Hne. apply (H (c :: v1) v2 eq_refl Hne).
Qed.

Lemma INSERT_PATTERN_eq : INSERT_PATTERN = re.literals KEYWORD ++ after_keyword.
Proof. reflexivity. Qed.

(** A well-formed statement is matched where it stands: the group is its
    value list and the match ends with the statement. *)
Lemma match_statement s rest :
  well_formed s = true ->
  re.match_here IGNORECASE INSERT_PATTERN false (render s ++ rest)
  = Some (st_values s, rest).
Proof.
  unfold well_formed, keyword_variant. intros H.
  apply andb_true_iff in H as [H Hclose].
  apply andb_true_iff in H as [H Hline].
  apply andb_true_iff in H as [H Hspace].
  apply andb_true_iff in H as [Hlen Hkw].
  apply Nat.eqb_eq in Hlen. apply negb_true_iff in Hclose.
  unfold re.match_here. rewrite INSERT_PATTERN_eq.
  rewrite exec_literals by reflexivity.
  unfold render. rewrite <- !app_assoc.
  rewrite literal_prefix_app, Hkw by assumption.
  rewrite <- Hlen, skipn_app, skipn_all, Nat.sub_diag. cbn [skipn app].
  unfold after_keyword. cbn [app re.exec].
  rewrite max_repeat_run.
  - rewrite consume_all_idle by reflexivity.
    cbn [re.atom_match]. rewrite literal_match_plain by lia. cbn [N.eqb Pos.eqb].
    cbn [re.consume re.no_marks re.recording].
    apply min_repeat_run.
    + exact Hline.
    + intros v1 v2 Hv Hne. fold closing. rewrite exec_closing.
      rewrite Hv in Hclose. now rewrite (has_close_suffix _ _ _ Hclose Hne).
    + fold closing. rewrite exec_closing. cbn [closes N.eqb Pos.eqb andb skipn].
      rewrite consume_all_recording by reflexivity. reflexivity.
  - exact Hspace.
  - reflexivity.
  - intros m' c t' Hc. cbn [re.atom_match] in *.
    rewrite literal_match_plain by lia. now rewrite (space_not_paren _ Hc).
Qed.

(** Conversely, whatever the pattern matches is a well-formed statement. *)
Lemma match_here_inv t g rest :
  re.match_here IGNORECASE INSERT_PATTERN false t = Some (g, rest) ->
  exists s, well_formed s = true /\ t = render s ++ rest /\ st_values s = g.
Proof.
  unfold re.match_here. rewrite INSERT_PATTERN_eq.
  rewrite exec_literals by reflexivity.
  destruct (re.literal_prefix IGNORECASE KEYWORD t) eqn:Hkw; [|discriminate].
  destruct (literal_prefix_split _ _ _ Hkw) as [Hlen Hkw'].
  unfold after_keyword. cbn [app re.exec]. intros H.
  apply max_repeat_inv in H as (ws & t1 & Ht1 & Hws & H).
  rewrite consume_all_idle in H by reflexivity.
  destruct t1 as [|c t1]; [discriminate|].
  cbn [re.atom_match] in H. rewrite literal_match_plain in H by lia.
  destruct (N.eqb_spec c 40) as [->|]; [|discriminate].
  cbn [re.consume re.no_marks re.recording] in H.
  apply min_repeat_inv in H as (v & t2 & -> & Hv & H & Hmin).
  fold closing in H, Hmin. rewrite exec_closing in H.
  destruct (closes t2) eqn:Hc; [|discriminate]. cbn [andb] in H.
  rewrite consume_all_recording in H by reflexivity. cbn in H.
  injection H as <- <-.
  destruct t2 as [|c1 [|c2 t2]]; try discriminate.
  cbn in Hc. apply andb_true_iff in Hc as [Hc1 Hc2].
  apply N.eqb_eq in Hc1, Hc2. subst c1 c2.
  exists {| st_keyword := firstn (length KEYWORD) t; st_space := ws; st_values := v |}.
  repeat split.
  - unfold well_formed, keyword_variant. cbn [st_keyword st_space st_values].
    change (forallb re.is_space ws)
      with (forallb (re.atom_match IGNORECASE re.CategorySpace) ws).
    rewrite Hlen, Nat.eqb_refl, Hkw', Hws. cbn [andb].
    change (single_line v) with (forallb (re.atom_match IGNORECASE re.Any) v).
    rewrite Hv. cbn [andb]. apply negb_true_iff.
    apply no_close_from_suffixes with (t := 41%N :: 59%N :: t2).
    intros v1 v2 E Hne. specialize (Hmin v1 v2 E Hne).
    rewrite exec_closing in Hmin. cbn [andb] in Hmin.
    destruct (closes (v2 ++ 41%N :: 59%N :: t2)) eqn:Hc'; [|reflexivity].
    discriminate Hmin.
  - unfold render. cbn [st_keyword st_space st_values skipn].
    rewrite <- !app_assoc. cbn [app]. rewrite <- Ht1. symmetry. apply firstn_skipn.
Qed.

Lemma render_length s : (0 < length (render s))%nat.
Proof. unfold render. rewrite !length_app. simpl. lia. Qed.

(** A match always consumes something. *)
Lemma match_here_progress t g rest :
  re.match_here IGNORECASE INSERT_PATTERN false t = Some (g, rest) ->
  (length rest < length t)%nat.
Proof.
  intros H. apply match_here_inv in H as (s & _ & -> & _).
  rewrite length_app. pose proof (render_length s). lia.
Qed.

(** No attempt succeeds where the keyword does not stand. *)
Lemma match_here_needs_keyword adv t :
  keyword_at t = false ->
  re.match_here IGNORECASE INSERT_PATTERN adv t = None.
Proof.
  unfold keyword_at, re.match_here. intros H.
  rewrite INSERT_PATTERN_eq, exec_literals by reflexivity. now rewrite H.
Qed.

(* ===================================================================== *)
(** * Facts about the scan *)
(* ===================================================================== *)

Section ScanFacts.
Variable ic : bool.
Variable p : re.pattern.

Lemma scan_cons off c t :
  re.scan ic p off 0 (c :: t) =
  match re.match_here ic p false (c :: t) with
  | None => re.scan ic p (S off) 0 t
  | Some (g, rest) =>
      if (length rest =? length (c :: t))%nat
      then (off, g) ::
           match re.match_here ic p true (c :: t) with
           | None => re.scan ic p (S off) 0 t
           | Some (g', rest') =>
               (off, g') ::
               re.scan ic p (S off) (length (c :: t) - length rest' - 1) t
           end
      else (off, g) :: re.scan ic p (S off) (length (c :: t) - length rest - 1) t
  end.
Proof. reflexivity. Qed.

(** The characters covered by a match are passed over. *)
Lemma scan_skip a t off :
  re.scan ic p off (length a) (a ++ t) = re.scan ic p (off + length a) 0 t.
Proof.
  revert off. induction a as [|c a IH]; intros off.
  - simpl. now rewrite Nat.add_0_r.
  - cbn [length app re.scan]. rewrite IH. f_equal. lia.
Qed.

(** When a match always consumes something, the matches are found at
    strictly increasing offsets, each by an attempt at its offset. *)
Hypothesis progress : forall t g rest,
  re.match_here ic p false t = Some (g, rest) -> (length rest < length t)%nat.

Lemma scan_sound t : forall off skip,
  Forall (fun og => (off + skip <= fst og)%nat
                    /\ exists rest,
                        re.match_here ic p false (skipn (fst og - off) t)
                        = Some (snd og, rest))
         (re.scan ic p off skip t)
  /\ StronglySorted (fun a b => (fst a < fst b)%nat) (re.scan ic p off skip t).
Proof.
  induction t as [|c t IH]; intros off skip.
  - cbn [re.scan]. destruct skip; [|split; constructor].
    destruct (re.match_here ic p false []) as [[g rest]|] eqn:E;
      [|split; constructor].
    apply progress in E. simpl in E. lia.
  - destruct skip as [|k].
    + rewrite scan_cons.
      destruct (re.match_here ic p false (c :: t)) as [[g rest]|] eqn:E.
      * pose proof (progress _ _ _ E) as Hlt.
        destruct (Nat.eqb_spec (length rest) (length (c :: t))) as [Heq|_]; [lia|].
        destruct (IH (S off) (length (c :: t) - length rest - 1)%nat) as [IH1 IH2].
        split.
        -- constructor.
           ++ cbn [fst snd]. split; [lia|]. rewrite Nat.sub_diag. cbn [skipn]. eauto.
           ++ eapply Forall_impl; [|exact IH1]. intros [o g'] [Ho [rest' Hm]].
              cbn [fst snd] in *. split; [lia|]. exists rest'.
              replace (o - off)%nat with (S (o - S off)) by lia. exact Hm.
        -- constructor; [exact IH2|].
           eapply Forall_impl; [|exact IH1]. intros [o g'] [Ho _].
           cbn [fst] in *. lia.
      * destruct (IH (S off) 0%nat) as [IH1 IH2]. split; [|exact IH2].
        eapply Forall_impl; [|exact IH1]. intros [o g'] [Ho [rest' Hm]].
        cbn [fst snd] in *. split; [lia|]. exists rest'.
        replace (o - off)%nat with (S (o - S off)) by lia. exact Hm.
    + cbn [re.scan]. destruct (IH (S off) k) as [IH1 IH2]. split; [|exact IH2].
      eapply Forall_impl; [|exact IH1]. intros [o g'] [Ho [rest' Hm]].
      cbn [fst snd] in *. split; [lia|]. exists rest'.
      replace (o - off)%nat with (S (o - S off)) by lia. exact Hm.
Qed.

End ScanFacts.

(** ** The scan over a dump *)

Lemma scan_end off : re.scan IGNORECASE INSERT_PATTERN off 0 [] = [].
Proof. reflexivity. Qed.

Lemma scan_quiet gap rest off :
  quiet gap rest = true ->
  re.scan IGNORECASE INSERT_PATTERN off 0 (gap ++ rest)
  = re.scan IGNORECASE INSERT_PATTERN (off + length gap) 0 rest.
Proof.
  revert off. induction gap as [|c gap IH]; intros off H.
  - simpl. now rewrite Nat.add_0_r.
  - cbn [quiet] in H. apply andb_true_iff in H as [H1 H2].
    apply negb_true_iff in H1.
    cbn [app]. rewrite scan_cons.
    change (c :: gap ++ rest) with ((c :: gap) ++ rest).
    rewrite (match_here_needs_keyword false _ H1).
    rewrite IH by assumption. cbn [length]. f_equal. lia.
Qed.

Lemma scan_hit s rest off :
  well_formed s = true ->
  re.scan IGNORECASE INSERT_PATTERN off 0 (render s ++ rest)
  = (off, st_values s)
    :: re.scan IGNORECASE INSERT_PATTERN (off + length (render s)) 0 rest.
Proof.
  intros Hwf. pose proof (match_statement s rest Hwf) as Hm.
  pose proof (render_length s) as Hlen.
  destruct (render s) as [|c r]; [simpl in Hlen; lia|].
  cbn [app] in *. rewrite scan_cons, Hm.
  destruct (Nat.eqb_spec (length rest) (length (c :: r ++ rest))) as [E|_].
  - cbn [length] in E. rewrite length_app in E. lia.
  - f_equal.
    replace (length (c :: r ++ rest) - length rest - 1)%nat with (length r)
      by (cbn [length]; rewrite length_app; lia).
    rewrite scan_skip. f_equal. cbn [length]. lia.
Qed.

Lemma scan_dump items tail : forall off,
  well_formed_dump items tail = true ->
  map snd (re.scan IGNORECASE INSERT_PATTERN off 0 (dump_text items tail))
  = map (fun it => st_values (snd it)) items.
Proof.
  induction items as [|[gap s] items IH]; intros off H.
  - cbn [dump_text well_formed_dump map] in *.
    rewrite <- (app_nil_r tail), scan_quiet by assumption. reflexivity.
  - cbn [dump_text well_formed_dump map snd] in *.
    apply andb_true_iff in H as [H Hrest].
    apply andb_true_iff in H as [Hgap Hs].
    rewrite scan_quiet by assumption.
    rewrite scan_hit by assumption. cbn [map snd]. f_equal. now apply IH.
Qed.

(* ===================================================================== *)
(** * Facts about the reader *)
(* ===================================================================== *)

Lemma feed_app d r a b :
  csv.feed d r (a ++ b) =
  match csv.feed d r a with
  | Ok r' => csv.feed d r' b
  | Raise e => Raise e
  end.
Proof.
  revert r. induction a as [|c a IH]; intros r; simpl; [reflexivity|].
  destruct (csv.parse_process_char d r (csv.Ch c)); [apply IH|reflexivity].
Qed.

(** ** The fields already saved are never touched again *)

Lemma extends_refl r : extends r r.
Proof. exists []. now rewrite app_nil_r. Qed.

Lemma extends_trans r1 r2 r3 : extends r1 r2 -> extends r2 r3 -> extends r1 r3.
Proof.
  intros [e1 H1] [e2 H2]. exists (e1 ++ e2). now rewrite H2, H1, app_assoc.
Qed.

Lemma add_char_extends r c r' : csv.parse_add_char r c = Ok r' -> extends r r'.
Proof.
  unfold csv.parse_add_char. destruct (_ <=? _)%N; [discriminate|].
  intros [= <-]. exists []. cbn. now rewrite app_nil_r.
Qed.

Lemma add_then_extends s r c r' : csv.add_then s r c = Ok r' -> extends r r'.
Proof.
  unfold csv.add_then. destruct (csv.parse_add_char r c) eqn:E; [|discriminate].
  intros [= <-]. apply add_char_extends in E. exact E.
Qed.

Lemma save_extends r : extends r (csv.parse_save_field r).
Proof. now exists [csv.field r]. Qed.

Lemma set_state_extends s r r' : extends r r' -> extends r (csv.set_state s r').
Proof. intros [e H]. now exists e. Qed.

Lemma end_of_line_extends i r : extends r (csv.end_of_line i r).
Proof. apply set_state_extends, save_extends. Qed.

Create HintDb reader.

#[local] Hint Resolve extends_refl save_extends set_state_extends
  end_of_line_extends add_char_extends add_then_extends : reader.

Lemma start_field_extends d r i r' :
  csv.start_field d r i = Ok r' -> extends r r'.
Proof.
  unfold csv.start_field. destruct i as [c|].
  - repeat match goal with
           | |- context [if ?b then _ else _] => destruct b
           end; try (intros [= <-]); eauto with reader.
  - intros [= <-]. auto with reader.
Qed.

Lemma process_extends d r i r' :
  csv.parse_process_char d r i = Ok r' -> extends r r'.
Proof.
  unfold csv.parse_process_char.
  destruct (csv.state r), i as [c|];
    repeat match goal with
           | |- context [if ?b then _ else _] => destruct b
           end;
    try (intros [= <-]); try discriminate; eauto with reader.
  - intros H. apply start_field_extends in H. destruct H as [e H]. now exists e.
  - apply start_field_extends.
Qed.

Lemma feed_extends d line : forall r r',
  csv.feed d r line = Ok r' -> extends r r'.
Proof.
  induction line as [|c line IH]; intros r r'; simpl.
  - intros [= <-]. apply extends_refl.
  - destruct (csv.parse_process_char d r (csv.Ch c)) as [r1|] eqn:E; [|discriminate].
    intros H. eapply extends_trans; [eapply process_extends; eassumption|eauto].
Qed.

Lemma iternext_extends d lines : forall r fs rest,
  csv.iternext_loop d r lines = (Ok fs, rest) ->
  exists ext, fs = csv.fields r ++ ext.
Proof.
  induction lines as [|line lines IH]; intros r fs rest; cbn [csv.iternext_loop].
  - destruct (_ || _); [|discriminate].
    destruct (csv.strict d); [discriminate|]. intros [= <- _].
    now exists [csv.field r].
  - destruct (csv.feed d r line) as [r1|] eqn:E1; [|discriminate].
    destruct (csv.parse_process_char d r1 csv.EOL) as [r2|] eqn:E2; [|discriminate].
    apply feed_extends in E1. apply process_extends in E2.
    pose proof (extends_trans _ _ _ E1 E2) as [e He].
    destruct (csv.state r2);
      try (intros H; apply IH in H as [e' ->]; exists (e ++ e');
           now rewrite He, app_assoc).
    intros [= <- _]. now exists e.
Qed.

(** ** Reading a well-formed value list *)

Lemma fits_nil : fits [] = true.
Proof. reflexivity. Qed.

Lemma fits_app_l a b : fits (a ++ b) = true -> fits a = true.
Proof.
  unfold fits. rewrite length_app. intros H.
  apply N.leb_le in H. apply N.leb_le. lia.
Qed.

Lemma parse_add_char_eq r c :
  csv.parse_add_char r c =
  if fits (csv.field r ++ [c])
  then Ok {| csv.state := csv.state r; csv.fields := csv.fields r;
             csv.field := csv.field r ++ [c] |}
  else Raise (CsvError csv.field_limit_msg).
Proof.
  unfold csv.parse_add_char, fits. rewrite length_app. cbn [length].
  destruct (N.leb_spec csv.field_limit (N.of_nat (length (csv.field r)))),
           (N.leb_spec (N.of_nat (length (csv.field r) + 1)) csv.field_limit);
    try reflexivity; lia.
Qed.

(** The characters of a bare value, once the field has begun. *)
Lemma feed_in_field f : forall r,
  csv.state r = csv.IN_FIELD -> plain f = true -> fits (csv.field r) = true ->
  csv.feed record_dialect r f =
  if fits (csv.field r ++ f)
  then Ok {| csv.state := csv.IN_FIELD; csv.fields := csv.fields r;
             csv.field := csv.field r ++ f |}
  else Raise (CsvError csv.field_limit_msg).
Proof.
  induction f as [|c f IH]; intros r Hst Hf Hfit.
  - rewrite app_nil_r, Hfit. destruct r; cbn in *. now subst.
  - cbn [plain forallb] in Hf. apply andb_true_iff in Hf as [Hc Hf].
    apply negb_true_iff in Hc.
    apply orb_false_iff in Hc as [Hc Hcr].
    apply orb_false_iff in Hc as [Hc Hlf].
    apply orb_false_iff in Hc as [Hcomma Hquote].
    cbn [csv.feed]. unfold csv.parse_process_char. rewrite Hst.
    cbn [csv.is_newline csv.delimiter record_dialect]. rewrite Hlf, Hcr, Hcomma.
    cbn [orb]. rewrite parse_add_char_eq.
    destruct (fits (csv.field r ++ [c])) eqn:E.
    + rewrite IH; cbn [csv.state csv.field csv.fields]; try assumption.
      rewrite <- app_assoc. reflexivity.
    + destruct (fits (csv.field r ++ c :: f)) eqn:E'; [|reflexivity].
      change (c :: f) with ([c] ++ f) in E'. rewrite app_assoc in E'.
      apply fits_app_l in E'. congruence.
Qed.

(** The characters between the quotes. *)
Lemma feed_in_quoted f : forall r,
  csv.state r = csv.IN_QUOTED_FIELD -> no_quote f = true ->
  fits (csv.field r) = true ->
  csv.feed record_dialect r f =
  if fits (csv.field r ++ f)
  then Ok {| csv.state := csv.IN_QUOTED_FIELD; csv.fields := csv.fields r;
             csv.field := csv.field r ++ f |}
  else Raise (CsvError csv.field_limit_msg).
Proof.
  induction f as [|c f IH]; intros r Hst Hf Hfit.
  - rewrite app_nil_r, Hfit. destruct r; cbn in *. now subst.
  - cbn [no_quote forallb] in Hf. apply andb_true_iff in Hf as [Hc Hf].
    apply negb_true_iff in Hc.
    cbn [csv.feed]. unfold csv.parse_process_char. rewrite Hst.
    cbn [csv.quotechar record_dialect]. rewrite Hc.
    rewrite parse_add_char_eq.
    destruct (fits (csv.field r ++ [c])) eqn:E.
    + rewrite IH; cbn [csv.state csv.field csv.fields]; try assumption.
      rewrite <- app_assoc. reflexivity.
    + destruct (fits (csv.field r ++ c :: f)) eqn:E'; [|reflexivity].
      change (c :: f) with ([c] ++ f) in E'. rewrite app_assoc in E'.
      apply fits_app_l in E'. congruence.
Qed.

(** A quoted value, up to its closing quote. *)
Lemma feed_quoted f r :
  at_start r -> no_quote f = true ->
  csv.feed record_dialect r (value_text (Quoted f)) =
  if fits f
  then Ok {| csv.state := csv.QUOTE_IN_QUOTED_FIELD; csv.fields := csv.fields r;
             csv.field := f |}
  else Raise (CsvError csv.field_limit_msg).
Proof.
  intros [Hst Hfield] Hf. cbn [value_text app csv.feed].
  assert (csv.parse_process_char record_dialect r (csv.Ch 39%N)
          = Ok (csv.set_state csv.IN_QUOTED_FIELD r)) as ->.
  { unfold csv.parse_process_char. destruct Hst as [-> | ->]; reflexivity. }
  rewrite feed_app, feed_in_quoted; cbn [csv.set_state csv.state csv.field];
    try assumption; try reflexivity; [|now rewrite Hfield].
  rewrite Hfield. cbn [app]. destruct (fits f); reflexivity.
Qed.

(** A value and the comma after it. *)
Lemma feed_value v r :
  at_start r -> value_ok v = true ->
  csv.feed record_dialect r (value_text v ++ [44%N]) =
  if fits (content v)
  then Ok {| csv.state := csv.START_FIELD;
             csv.fields := csv.fields r ++ [content v]; csv.field := [] |}
  else Raise (CsvError csv.field_limit_msg).
Proof.
  intros Hr Hv. destruct v as [f|f]; cbn [value_ok content] in *.
  - destruct Hr as [Hst Hfield]. cbn [value_text].
    destruct f as [|c f].
    + cbn [app csv.feed]. unfold csv.parse_process_char.
      destruct Hst as [Hst | Hst]; rewrite Hst; cbn;
        unfold csv.parse_save_field, csv.set_state; cbn;
        rewrite ?Hst, Hfield; reflexivity.
    + pose proof Hv as Hv'.
      cbn [plain forallb] in Hv. apply andb_true_iff in Hv as [Hc Hf].
      apply negb_true_iff in Hc.
      apply orb_false_iff in Hc as [Hc Hcr].
      apply orb_false_iff in Hc as [Hc Hlf].
      apply orb_false_iff in Hc as [Hcomma Hquote].
      assert (csv.parse_process_char record_dialect r (csv.Ch c)
              = Ok {| csv.state := csv.IN_FIELD; csv.fields := csv.fields r;
                      csv.field := [c] |}) as E.
      { unfold csv.parse_process_char, csv.start_field, csv.add_then.
        destruct Hst as [-> | ->];
          cbn [csv.is_newline csv.quotechar csv.delimiter csv.skipinitialspace
               record_dialect csv.set_state csv.state csv.fields csv.field];
          rewrite ?Hlf, ?Hcr, ?Hcomma, ?Hquote; cbn [orb andb];
          rewrite ?andb_false_r; rewrite parse_add_char_eq;
          cbn [csv.set_state csv.state csv.fields csv.field];
          rewrite Hfield; reflexivity. }
      cbn [app csv.feed]. rewrite E, feed_app.
      rewrite feed_in_field; cbn [csv.state csv.field csv.fields];
        try assumption; try reflexivity.
      cbn [app]. destruct (fits (c :: f)); reflexivity.
  - rewrite feed_app, feed_quoted by assumption.
    destruct (fits f); reflexivity.
Qed.

(** A run of values, each with its comma. *)
Lemma feed_leading pre : forall r,
  at_start r -> forallb value_ok pre = true ->
  csv.feed record_dialect r (leading pre) =
  if forallb (fun v => fits (content v)) pre
  then Ok {| csv.state := match pre with [] => csv.state r | _ => csv.START_FIELD end;
             csv.fields := csv.fields r ++ map content pre; csv.field := [] |}
  else Raise (CsvError csv.field_limit_msg).
Proof.
  induction pre as [|v pre IH]; intros r Hr Hpre.
  - cbn. rewrite app_nil_r. destruct Hr as [_ Hfield]. destruct r; cbn in *. now subst.
  - cbn [forallb] in Hpre. apply andb_true_iff in Hpre as [Hv Hpre].
    unfold leading. cbn [map concat]. fold (leading pre).
    rewrite feed_app, feed_value by assumption. cbn [forallb].
    destruct (fits (content v)); [|reflexivity]. cbn [andb].
    rewrite IH; [|split; [now right|reflexivity]|assumption].
    cbn [csv.state csv.fields map]. rewrite <- app_assoc. cbn [app].
    destruct pre; reflexivity.
Qed.

Lemma at_start_reset : at_start csv.parse_reset.
Proof. split; [now left|reflexivity]. Qed.

(** ** [parse_record] on top of the reader *)

Lemma parse_record_ok s fields :
  fst (csv.reader_next record_dialect [s]) = Ok fields ->
  parse_record s 16 = Ok (firstn 16 (fields ++ repeat [] (16 - length fields))).
Proof.
  unfold parse_record. intros ->.
  destruct (Z.ltb_spec 16 (Z.of_nat (length fields))) as [H|H].
  - unfold slice_to. cbn [Z.ltb Z.compare].
    replace (16 - length fields)%nat with 0%nat by lia.
    cbn [repeat]. rewrite app_nil_r. reflexivity.
  - destruct (Z.ltb_spec (Z.of_nat (length fields)) 16) as [H'|H'].
    + replace (Z.to_nat (16 - Z.of_nat (length fields))) with (16 - length fields)%nat by lia.
      rewrite firstn_all2; [reflexivity|].
      rewrite length_app, repeat_length. lia.
    + replace (16 - length fields)%nat with 0%nat by lia.
      cbn [repeat]. rewrite app_nil_r, firstn_all2; [reflexivity|lia].
Qed.

Lemma parse_record_raises s e :
  fst (csv.reader_next record_dialect [s]) = Raise e ->
  parse_record s 16 = Raise e.
Proof. unfold parse_record. now intros ->. Qed.

Lemma normalised_length (fields : list (list N)) :
  length (firstn 16 (fields ++ repeat [] (16 - length fields))) = 16%nat.
Proof. rewrite length_firstn, length_app, repeat_length. lia. Qed.


(** Feeding the head of a line first. *)
Lemma iternext_head d r a b lines r' :
  csv.feed d r a = Ok r' ->
  csv.iternext_loop d r ((a ++ b) :: lines) = csv.iternext_loop d r' (b :: lines).
Proof. intros H. cbn [csv.iternext_loop]. now rewrite feed_app, H. Qed.

Lemma iternext_head_raises d r a b lines e :
  csv.feed d r a = Raise e ->
  fst (csv.iternext_loop d r ((a ++ b) :: lines)) = Raise e.
Proof. intros H. cbn [csv.iternext_loop]. now rewrite feed_app, H. Qed.



(** ** The reader accepts every line without a line break *)

Lemma process_char_ok r c :
  csv.state r <> csv.EAT_CRNL ->
  csv.is_newline (csv.Ch c) = false ->
  fits (csv.field r ++ [c]) = true ->
  exists r', csv.parse_process_char record_dialect r (csv.Ch c) = Ok r'
             /\ csv.state r' <> csv.EAT_CRNL
             /\ (length (csv.field r') <= S (length (csv.field r)))%nat.
Proof.
  intros Hst Hnl Hfit.
  unfold csv.parse_process_char, csv.start_field, csv.add_then.
  rewrite Hnl.
  destruct (csv.state r) eqn:E; try congruence;
    cbn [csv.quotechar csv.delimiter csv.skipinitialspace csv.doublequote
         csv.strict record_dialect negb];
    rewrite ?andb_false_r;
    repeat match goal with
           | |- context [(c =? ?k)%N] => destruct (c =? k)%N
           end;
    rewrite ?parse_add_char_eq;
    cbn [csv.set_state csv.parse_save_field csv.state csv.fields csv.field];
    rewrite ?Hfit;
    eexists; (split; [reflexivity|]);
    cbn [csv.set_state csv.parse_save_field csv.state csv.fields csv.field length];
    rewrite ?E, ?length_app; cbn [length];
    (split; [discriminate|lia]).
Qed.

Lemma feed_ok s : forall r,
  csv.state r <> csv.EAT_CRNL ->
  no_linebreak s = true ->
  (N.of_nat (length (csv.field r) + length s) <= csv.field_limit)%N ->
  exists r', csv.feed record_dialect r s = Ok r' /\ csv.state r' <> csv.EAT_CRNL.
Proof.
  induction s as [|c s IH]; intros r Hst Hs Hlen.
  - exists r. now split.
  - cbn [no_linebreak forallb] in Hs. apply andb_true_iff in Hs as [Hc Hs].
    apply negb_true_iff in Hc. cbn [length] in Hlen.
    destruct (process_char_ok r c Hst Hc) as (r1 & E1 & Hst1 & Hlen1).
    { unfold fits. rewrite length_app. cbn [length]. apply N.leb_le. lia. }
    cbn [csv.feed]. rewrite E1. apply IH; try assumption. lia.
Qed.

Lemma reader_accepts s :
  no_linebreak s = true -> fits s = true ->
  exists fields, fst (csv.reader_next record_dialect [s]) = Ok fields.
Proof.
  intros Hs Hfit. unfold csv.reader_next. cbn [csv.iternext_loop].
  destruct (feed_ok s csv.parse_reset) as (r1 & -> & Hst); try assumption.
  { discriminate. }
  { unfold fits in Hfit. apply N.leb_le in Hfit. exact Hfit. }
  unfold csv.parse_process_char.
  destruct (csv.state r1) eqn:E; try congruence; cbn; rewrite ?E; cbn;
    try (eexists; reflexivity).
  rewrite orb_true_r. cbn. eexists; reflexivity.
Qed.

(* ===================================================================== *)
(** * Facts about the writer and the files *)
(* ===================================================================== *)

Lemma join_append_data_excel f : forall q,
  exists q' body, csv.join_append_data csv.excel q f = Ok (q', body).
Proof.
  induction f as [|c f IH]; intros q; cbn [csv.join_append_data].
  - now exists q, [].
  - cbn [csv.doublequote csv.excel negb]. rewrite andb_false_r.
    destruct (csv.special csv.excel c).
    + destruct (IH true) as (q' & body & ->). eauto.
    + destruct (IH q) as (q' & body & ->). eauto.
Qed.

Lemma join_append_excel q f : exists s, csv.join_append csv.excel q f = Ok s.
Proof.
  unfold csv.join_append.
  destruct (join_append_data_excel f q) as ([|] & body & ->); eauto.
Qed.

Lemma join_fields_excel row : forall first,
  exists s, csv.join_fields csv.excel first row = Ok s.
Proof.
  induction row as [|f row IH]; intros first; cbn [csv.join_fields]; [eauto|].
  destruct (join_append_excel false f) as [s ->].
  destruct (IH false) as [s' ->]. eauto.
Qed.

(** With the default dialect the writer never raises. *)
Lemma writerow_excel row : csv.writerow csv.excel row = Ok (row_line row).
Proof.
  unfold row_line, csv.writerow.
  destruct (join_fields_excel row true) as [s ->]. reflexivity.
Qed.

Lemma HEADER_LINE_eq : row_line HEADERS = HEADER_LINE.
Proof. vm_compute. reflexivity. Qed.

Lemma writer_writerows_eq path rows : forall env tr,
  writer_writerows path rows env tr
  = (Ok tt, tr ++ map (fun row => FileWritten path (row_line row)) rows).
Proof.
  induction rows as [|row rows IH]; intros env tr; cbn [writer_writerows map].
  - unfold ret. now rewrite app_nil_r.
  - cbv beta iota delta [bind writer_writerow lift file_write emit].
    rewrite writerow_excel. cbv beta iota. rewrite IH, <- app_assoc. reflexivity.
Qed.

Lemma write_csv_eq records headers path env tr :
  write_csv records headers path env tr =
  match open_error env path with
  | None => (Ok tt, tr ++ csv_trace path headers records)
  | Some msg => (Raise (OSError msg), tr)
  end.
Proof.
  cbv beta iota delta [write_csv bind open_w writer_writerow lift file_write emit].
  destruct (open_error env path); [reflexivity|].
  rewrite writerow_excel. cbv beta iota.
  rewrite writer_writerows_eq, <- !app_assoc. reflexivity.
Qed.

(** ** File contents *)

Lemma str_eqb_refl a : str_eqb a a = true.
Proof. induction a as [|x a IH]; cbn; [reflexivity|]. now rewrite N.eqb_refl. Qed.

Lemma str_eqb_eq a : forall b, str_eqb a b = true -> a = b.
Proof.
  induction a as [|x a IH]; intros [|y b]; cbn; try discriminate; [reflexivity|].
  intros H. apply andb_true_iff in H as [H1 H2].
  apply N.eqb_eq in H1. apply IH in H2. now subst.
Qed.

Lemma file_content_app tr1 tr2 path :
  file_content (tr1 ++ tr2) path
  = fold_left (file_step path) tr2 (file_content tr1 path).
Proof. unfold file_content. apply fold_left_app. Qed.

Lemma fold_writes path datas : forall cur,
  fold_left (file_step path) (map (FileWritten path) datas) (Some cur)
  = Some (cur ++ concat datas).
Proof.
  induction datas as [|d datas IH]; intros cur; cbn [map fold_left concat].
  - now rewrite app_nil_r.
  - cbn [file_step]. rewrite str_eqb_refl. cbn [option_map].
    rewrite IH, <- app_assoc. reflexivity.
Qed.

(** After the events of [csv_trace] the file holds the header line followed
    by the lines of the records, whatever came before. *)
Lemma file_content_csv tr path headers records :
  file_content (tr ++ csv_trace path headers records) path
  = Some (row_line headers ++ concat (map row_line records)).
Proof.
  rewrite file_content_app. unfold csv_trace. cbn [fold_left file_step].
  rewrite str_eqb_refl. cbn [option_map app].
  rewrite <- (map_map row_line (FileWritten path)). apply fold_writes.
Qed.

Lemma fold_untouched path tr : forall cur,
  forallb (fun ev => negb (touches path ev)) tr = true ->
  fold_left (file_step path) tr cur = cur.
Proof.
  induction tr as [|ev tr IH]; intros cur H; [reflexivity|].
  cbn [forallb] in H. apply andb_true_iff in H as [Hev H].
  apply negb_true_iff in Hev. cbn [fold_left]. rewrite IH by assumption.
  destruct ev; cbn [touches file_step] in *; try reflexivity; now rewrite Hev.
Qed.

Lemma file_content_untouched tr1 tr2 path :
  forallb (fun ev => negb (touches path ev)) tr2 = true ->
  file_content (tr1 ++ tr2) path = file_content tr1 path.
Proof. intros H. rewrite file_content_app. now apply fold_untouched. Qed.

(* ===================================================================== *)
(** * The run, case by case *)
(* ===================================================================== *)

Lemma run_eq env : run env = run_cases env.
Proof.
  unfold run, main, try_except, run_cases.
  cbv beta iota delta [main_body from_file bind fetch_sql requests_get emit
    print_stderr lift ret open_w file_write sys_exit raise].
  cbn [app].
  change [Stderr (lit "Fetching SQL from " ++ URL ++ [ELLIPSIS]); HttpGet URL 10]
    with fetch_trace.
  destruct (http_get env URL) as [resp|e];
    [|unfold handled; destruct e; reflexivity].
  destruct (requests.raise_for_status resp) as [[]|e];
    [|unfold handled; destruct e; reflexivity].
  destruct (open_error env map_sql) as [msg|]; [reflexivity|].
  rewrite <- !app_assoc. cbn [app].
  change (fetch_trace ++ _ :: _ :: _ :: [_]) with
    (fetch_trace ++ save_trace (requests.text resp)).
  destruct (extract_value_strings (requests.text resp)) as [|raw raws] eqn:Hx;
    [reflexivity|].
  change (Z.of_nat (length HEADERS)) with 16%Z.
  destruct (traverse _ (raw :: raws)) as [parsed|e];
    [|unfold handled; destruct e; reflexivity].
  rewrite write_csv_eq.
  destruct (open_error env output_file) as [msg|]; [reflexivity|].
  rewrite <- !app_assoc. reflexivity.
Qed.

(* ===================================================================== *)
(** * Properties of the program *)
(* ===================================================================== *)

(** ** Column-count normalisation *)

(** C1, as stated, fails: on the value string [1\r2] the reader raises
    [csv.Error] (a line break outside quotes followed by another character),
    so [parse_record] returns no list at all. *)
Lemma parse_record_stray_cr :
  parse_record stray_cr 16 = Raise (CsvError csv.newline_msg)
  /\ ~ (exists r, parse_record stray_cr 16 = Ok r /\ length r = 16%nat).
Proof.
  assert (parse_record stray_cr 16 = Raise (CsvError csv.newline_msg)) as E
    by (vm_compute; reflexivity).
  split; [exact E|]. intros (r & Hr & _). rewrite E in Hr. discriminate Hr.
Qed.

(** C1, amended: for every value string that the csv reader accepts, and
    for [expected_cols = 16], [parse_record] returns a list of exactly 16
    fields: with fewer than 16 parsed fields, the parsed fields followed by
    empty strings; with more than 16, the first 16 parsed fields; with 16,
    the parsed fields. *)
Theorem parse_record_sixteen (s : str) (fields : list str) :
  fst (csv.reader_next record_dialect [s]) = Ok fields ->
  exists r, parse_record s 16 = Ok r
    /\ length r = 16%nat
    /\ (length fields < 16 -> r = fields ++ repeat [] (16 - length fields))%nat
    /\ (16 < length fields -> r = firstn 16 fields)%nat
    /\ (length fields = 16%nat -> r = fields).
Proof.
  intros H. rewrite (parse_record_ok _ _ H). eexists. split; [reflexivity|].
  split; [apply normalised_length|]. repeat split; intros Hlen.
  - apply firstn_all2. rewrite length_app, repeat_length. lia.
  - replace (16 - length fields)%nat with 0%nat by lia.
    cbn [repeat]. now rewrite app_nil_r.
  - replace (16 - length fields)%nat with 0%nat by lia.
    cbn [repeat]. rewrite app_nil_r. apply firstn_all2. lia.
Qed.

Lemma parse_record_sixteen_witness :
  exists r, parse_record (lit "1,'a,b'") 16 = Ok r
    /\ length r = 16%nat
    /\ (length [lit "1"; lit "a,b"] < 16
        -> r = [lit "1"; lit "a,b"] ++ repeat [] (16 - length [lit "1"; lit "a,b"]))%nat
    /\ (16 < length [lit "1"; lit "a,b"] -> r = firstn 16 [lit "1"; lit "a,b"])%nat
    /\ (length [lit "1"; lit "a,b"] = 16%nat -> r = [lit "1"; lit "a,b"]).
Proof.
  apply (parse_record_sixteen (lit "1,'a,b'") [lit "1"; lit "a,b"]).
  vm_compute. reflexivity.
Defined.

(** The reader accepts, in particular, every value string without a line
    break that is no longer than the field size limit. *)
Lemma parse_record_single_line s :
  no_linebreak s = true -> fits s = true ->
  exists r, parse_record s 16 = Ok r /\ length r = 16%nat.
Proof.
  intros Hs Hfit. destruct (reader_accepts s Hs Hfit) as [fields H].
  rewrite (parse_record_ok _ _ H). eexists. split; [reflexivity|].
  apply normalised_length.
Qed.

Lemma parse_record_ok_inv s fields r :
  fst (csv.reader_next record_dialect [s]) = Ok fields ->
  parse_record s 16 = Ok r ->
  r = firstn 16 (fields ++ repeat [] (16 - length fields)).
Proof. intros H1 H2. rewrite (parse_record_ok _ _ H1) in H2. congruence. Qed.


(** ** Quoted values *)




(** ** Extraction *)

(** C2: for every text made of well-formed [x_world] INSERT statements and
    of other text in which the keyword begins nowhere,
    [extract_value_strings] returns the value list of each statement, one
    per statement: as many value strings as there are statements. *)
Theorem extract_one_per_statement (items : dump) (tail : str) :
  well_formed_dump items tail = true ->
  extract_value_strings (dump_text items tail)
  = map (fun it => st_values (snd it)) items
  /\ length (extract_value_strings (dump_text items tail)) = length items.
Proof.
  intros H. unfold extract_value_strings, re.findall, re.finditer.
  rewrite (scan_dump items tail 0 H). split; [reflexivity|apply length_map].
Qed.

Lemma extract_one_per_statement_witness :
  extract_value_strings sample_sql
  = map (fun it => st_values (snd it)) sample_dump
  /\ length (extract_value_strings sample_sql) = length sample_dump.
Proof.
  apply (extract_one_per_statement sample_dump [LF]).
  vm_compute. reflexivity.
Defined.

(** C10, as stated, fails: a statement whose quoted value holds [);] and
    then a line break has a newline in its value list, and yet yields a
    record, cut at that [);]. *)
Lemma multi_line_statement_matched :
  In LF (st_values multi_line_statement)
  /\ keyword_variant (st_keyword multi_line_statement) = true
  /\ extract_value_strings (render multi_line_statement) = [lit "1,'a"].
Proof.
  split; [|split]; [|reflexivity|vm_compute; reflexivity].
  unfold multi_line_statement, st_values. apply in_or_app. right. now left.
Qed.

Lemma findall_in t g :
  In g (extract_value_strings t) ->
  exists off rest,
    re.match_here IGNORECASE INSERT_PATTERN false (skipn off t) = Some (g, rest).
Proof.
  unfold extract_value_strings, re.findall, re.finditer. intros H.
  apply in_map_iff in H as ([off g'] & Hg & Hin). cbn [snd] in Hg. subst g'.
  destruct (scan_sound IGNORECASE INSERT_PATTERN match_here_progress t 0 0)
    as [Hall _].
  rewrite Forall_forall in Hall. destruct (Hall _ Hin) as [_ [rest Hm]].
  cbn [fst snd] in Hm. eauto.
Qed.

Lemma single_line_no_LF v : single_line v = true -> ~ In LF v.
Proof.
  unfold single_line. intros H Hin. rewrite forallb_forall in H.
  specialize (H _ Hin). now rewrite N.eqb_refl in H.
Qed.

(** The match fails at a statement whose value list reaches a line break
    before any [);]. *)
Lemma match_stuck kw ws v rest :
  keyword_variant kw = true ->
  forallb re.is_space ws = true ->
  single_line v = true -> has_close v = false ->
  re.match_here IGNORECASE INSERT_PATTERN false
    (kw ++ ws ++ [40%N] ++ v ++ LF :: rest) = None.
Proof.
  unfold keyword_variant. intros Hkw Hws Hline Hclose.
  apply andb_true_iff in Hkw as [Hlen Hkw]. apply Nat.eqb_eq in Hlen.
  unfold re.match_here. rewrite INSERT_PATTERN_eq.
  rewrite exec_literals by reflexivity.
  rewrite literal_prefix_app, Hkw by assumption.
  rewrite <- Hlen, skipn_app, skipn_all, Nat.sub_diag. cbn [skipn app].
  unfold after_keyword. cbn [app re.exec].
  rewrite max_repeat_run.
  - rewrite consume_all_idle by reflexivity.
    cbn [re.atom_match]. rewrite literal_match_plain by lia. cbn [N.eqb Pos.eqb].
    apply min_repeat_stuck.
    + exact Hline.
    + reflexivity.
    + intros v1 v2 Hv. fold closing. rewrite exec_closing.
      destruct v2 as [|c1 [|c2 v2]].
      * cbn [app]. destruct rest; reflexivity.
      * cbn [app closes]. change (LF =? 59)%N with false. now rewrite andb_false_r.
      * subst v. assert (closes (c1 :: c2 :: v2) = false) as E.
        { clear -Hclose. induction v1 as [|c v1 IH]; cbn [app has_close] in Hclose.
          - now apply orb_false_iff in Hclose as [H _].
          - apply orb_false_iff in Hclose as [_ H]. now apply IH. }
        cbn [app closes] in *. now rewrite E.
  - exact Hws.
  - reflexivity.
  - intros m' c t' Hc. cbn [re.atom_match] in *.
    rewrite literal_match_plain by lia. now rewrite (space_not_paren _ Hc).
Qed.

(** C10, amended: the pattern matches in any letter case (the lower-case
    keyword is a variant of it, and a well-formed statement in any variant is
    matched with its value list as the captured text); the captured text
    never holds a newline; and a statement whose value list reaches a newline
    before any [);] is not matched, so no record starts at it. *)
Theorem pattern_case_and_lines :
  keyword_variant (lit "insert into `x_world` values") = true
  /\ (forall s rest, well_formed s = true ->
        re.match_here IGNORECASE INSERT_PATTERN false (render s ++ rest)
        = Some (st_values s, rest))
  /\ (forall t g, In g (extract_value_strings t) -> ~ In LF g)
  /\ (forall kw ws v rest,
        keyword_variant kw = true -> forallb re.is_space ws = true ->
        single_line v = true -> has_close v = false ->
        re.match_here IGNORECASE INSERT_PATTERN false
          (kw ++ ws ++ [40%N] ++ v ++ LF :: rest) = None).
Proof.
  split; [reflexivity|]. split; [exact match_statement|]. split.
  - intros t g Hin. apply findall_in in Hin as (off & rest & Hm).
    apply match_here_inv in Hm as (s & Hwf & _ & <-).
    unfold well_formed in Hwf.
    apply andb_true_iff in Hwf as [Hwf _].
    apply andb_true_iff in Hwf as [_ Hline].
    now apply single_line_no_LF.
  - exact match_stuck.
Qed.

Lemma pattern_case_and_lines_witness :
  re.match_here IGNORECASE INSERT_PATTERN false (render sample_statement_2 ++ [LF])
  = Some (st_values sample_statement_2, [LF])
  /\ re.match_here IGNORECASE INSERT_PATTERN false
       (lit "insert into `x_world` values" ++ lit " " ++ [40%N] ++ lit "1," ++ LF :: lit "2);")
     = None.
Proof.
  destruct pattern_case_and_lines as (_ & H2 & _ & H4). split.
  - apply (H2 sample_statement_2 [LF]). reflexivity.
  - apply (H4 (lit "insert into `x_world` values") (lit " ") (lit "1,") (lit "2);"));
      reflexivity.
Defined.

(** ** Facts about the cases of a run *)

Lemma traverse_Forall2 {A B} (f : A -> outcome B) l : forall ys,
  traverse f l = Ok ys -> Forall2 (fun x y => f x = Ok y) l ys.
Proof.
  induction l as [|x l IH]; intros ys; cbn [traverse].
  - intros [= <-]. constructor.
  - destruct (f x) as [y|] eqn:E; [|discriminate].
    destruct (traverse f l) as [ys'|]; [|discriminate].
    intros [= <-]. constructor; auto.
Qed.

Lemma handled_trace e tr :
  snd (handled e tr) = tr
  \/ exists line, snd (handled e tr) = tr ++ [Stderr line].
Proof. unfold handled. destruct e; cbn; eauto. Qed.


Lemma handled_content e tr path :
  file_content (snd (handled e tr)) path = file_content tr path.
Proof.
  destruct (handled_trace e tr) as [-> | [line ->]]; [reflexivity|].
  now rewrite file_content_untouched.
Qed.

Lemma handled_requests e tr :
  http_requests (snd (handled e tr)) = http_requests tr.
Proof.
  destruct (handled_trace e tr) as [-> | [line ->]]; [reflexivity|].
  unfold http_requests. rewrite flat_map_app. cbn. now rewrite app_nil_r.
Qed.

Lemma handled_opened e tr path :
  In (FileOpened path) (snd (handled e tr)) -> In (FileOpened path) tr.
Proof.
  destruct (handled_trace e tr) as [-> | [line ->]]; [trivial|].
  intros H. apply in_app_or in H as [H|[H|[]]]; [exact H|discriminate H].
Qed.

Lemma http_requests_app tr1 tr2 :
  http_requests (tr1 ++ tr2) = http_requests tr1 ++ http_requests tr2.
Proof. apply flat_map_app. Qed.

Lemma http_requests_csv path headers records :
  http_requests (csv_trace path headers records) = [].
Proof.
  unfold csv_trace, http_requests. cbn [flat_map app].
  induction records; cbn; auto.
Qed.

Lemma map_sql_not_output : str_eqb map_sql output_file = false.
Proof. reflexivity. Qed.

(** A file no event touches was not written by the run. *)
Lemma file_absent tr path :
  forallb (fun ev => negb (touches path ev)) tr = true ->
  file_content tr path = None.
Proof. intros H. unfold file_content. now apply fold_untouched. Qed.

(** The content of the CSV file after a run, when there is one: the fetch
    succeeded, every record was parsed, and the file holds the header line and
    one line per record. *)
Lemma run_csv_content env csv_text :
  file_content (snd (run env)) output_file = Some csv_text ->
  exists resp parsed,
    http_get env URL = Ok resp
    /\ requests.raise_for_status resp = Ok tt
    /\ traverse (fun rec => parse_record rec 16%Z)
                (extract_value_strings (requests.text resp)) = Ok parsed
    /\ csv_text = HEADER_LINE ++ concat (map row_line parsed)
    /\ fst (run env) = 0%Z.
Proof.
  rewrite run_eq. unfold run_cases.
  destruct (http_get env URL) as [resp|e] eqn:Hget;
    [|rewrite handled_content; discriminate].
  destruct (requests.raise_for_status resp) as [[]|e] eqn:Hstatus;
    [|rewrite handled_content; discriminate].
  destruct (open_error env map_sql) as [msg|];
    [rewrite handled_content; discriminate|].
  cbv zeta.
  destruct (extract_value_strings (requests.text resp)) as [|raw raws] eqn:Hx.
  - cbn [snd]. rewrite file_absent by reflexivity. discriminate.
  - destruct (traverse _ (raw :: raws)) as [parsed|e] eqn:Ht.
    + destruct (open_error env output_file) as [msg|].
      * rewrite handled_content, file_absent by reflexivity. discriminate.
      * cbn [fst snd]. rewrite app_assoc, file_content_untouched by reflexivity.
        rewrite file_content_csv, HEADER_LINE_eq. intros [= <-].
        exists resp, parsed. rewrite Hx. repeat split; try reflexivity; assumption.
    + rewrite handled_content, file_absent by reflexivity. discriminate.
Qed.

(* ===================================================================== *)
(** * The writer, field by field *)
(* ===================================================================== *)

Lemma special_quote : csv.special csv.excel 34%N = true.
Proof. reflexivity. Qed.


Lemma join_append_data_eq f : forall q,
  csv.join_append_data csv.excel q f = Ok (q || needs_quotes f, doubled f).
Proof.
  induction f as [|c f IH]; intros q; cbn [csv.join_append_data].
  - cbn. now rewrite orb_false_r.
  - cbn [csv.doublequote csv.excel negb csv.quotechar]. rewrite andb_false_r.
    unfold needs_quotes, doubled. cbn [existsb flat_map].
    fold (needs_quotes f). fold (doubled f).
    destruct (csv.special csv.excel c) eqn:Hc.
    + rewrite IH. cbn [orb]. rewrite orb_true_r.
      destruct (N.eqb_spec c 34) as [->|]; reflexivity.
    + rewrite IH. cbn [orb].
      destruct (N.eqb_spec c 34) as [->|]; [discriminate Hc|reflexivity].
Qed.

Lemma doubled_plain f : needs_quotes f = false -> doubled f = f.
Proof.
  unfold needs_quotes, doubled. induction f as [|c f IH]; [reflexivity|].
  cbn [existsb flat_map]. intros H. apply orb_false_iff in H as [Hc Hf].
  rewrite IH by assumption.
  destruct (N.eqb_spec c 34) as [->|]; [discriminate Hc|reflexivity].
Qed.

Lemma join_append_eq f : csv.join_append csv.excel false f = Ok (rendered f).
Proof.
  unfold csv.join_append, rendered. rewrite join_append_data_eq. cbn [orb].
  destruct (needs_quotes f) eqn:E; [reflexivity|]. now rewrite doubled_plain.
Qed.

Lemma join_fields_rest row :
  csv.join_fields csv.excel false row
  = Ok (concat (map (fun g => 44%N :: rendered g) row)).
Proof.
  induction row as [|f row IH]; [reflexivity|].
  cbn [csv.join_fields]. rewrite join_append_eq, IH. reflexivity.
Qed.

(** The line of a record: nothing for no field, an empty quoted field for
    one empty field, otherwise the rendered fields between commas; then the
    line terminator. *)
Lemma row_line_eq row :
  row_line row =
  match row with
  | [] => [CR; LF]
  | [[]] => [34%N; 34%N; CR; LF]
  | f :: row' =>
      rendered f ++ concat (map (fun g => 44%N :: rendered g) row') ++ [CR; LF]
  end.
Proof.
  unfold row_line, csv.writerow. destruct row as [|f row']; [reflexivity|].
  cbn [csv.join_fields]. rewrite join_append_eq, join_fields_rest. cbn [app].
  destruct f as [|c f].
  - destruct row' as [|g row']; [reflexivity|]. reflexivity.
  - assert (exists c' s, rendered (c :: f) = c' :: s) as (c' & s & ->).
    { unfold rendered. destruct (needs_quotes (c :: f)); cbn; eauto. }
    cbn [app]. rewrite <- app_assoc. reflexivity.
Qed.

(* ===================================================================== *)
(** * Lines *)
(* ===================================================================== *)





(* ===================================================================== *)
(** * Reading back what the writer wrote *)
(* ===================================================================== *)

(** ** Steps of [resume] *)




(** ** A quoted field *)


(** ** A field written without quotes *)





(** ** The end of a record *)


(** ** A field and what follows it *)



Lemma rendered_nonempty c f : rendered (c :: f) <> [].
Proof. unfold rendered. destruct (needs_quotes (c :: f)); discriminate. Qed.


(** ** A record *)



(** ** A whole file *)




(** ** The fields of the reader are within the limit *)


Lemma within_set_state s r : within r -> within (csv.set_state s r).
Proof. intros H. exact H. Qed.

Lemma within_save r : within r -> within (csv.parse_save_field r).
Proof.
  intros [Hf Hfs]. split; [reflexivity|]. cbn [csv.parse_save_field csv.fields].
  apply Forall_app. split; [exact Hfs|]. now constructor.
Qed.



Lemma within_end_of_line i r : within r -> within (csv.end_of_line i r).
Proof. intros H. apply within_set_state, within_save, H. Qed.

Create HintDb within.

#[local] Hint Resolve within_set_state within_save within_end_of_line : within.








(** ** The output file *)





(** ** Exit status *)



(** ** Failures *)

(** C7, as stated, fails: a final response with status 300, which is not a
    2xx status, does not abort the run; with INSERT statements in its body
    the run writes the CSV and exits with status 0. *)
Lemma multiple_choices_proceeds :
  requests.status_code (sample_response 300 sample_sql) = 300%Z
  /\ fst (run (online 300 sample_sql)) = 0%Z
  /\ exists csv_text,
       file_content (snd (run (online 300 sample_sql))) output_file = Some csv_text.
Proof.
  split; [reflexivity|]. split; [vm_compute; reflexivity|].
  eexists. vm_compute. reflexivity.
Qed.

Lemma raise_for_status_error resp :
  (400 <= requests.status_code resp < 600)%Z ->
  exists msg, requests.raise_for_status resp = Raise (HTTPError msg).
Proof.
  intros [H1 H2]. unfold requests.raise_for_status.
  destruct (Z.leb_spec 400 (requests.status_code resp)); [|lia].
  destruct (Z.ltb_spec (requests.status_code resp) 500); cbn [andb]; [eauto|].
  destruct (Z.leb_spec 500 (requests.status_code resp)); [|lia].
  destruct (Z.ltb_spec (requests.status_code resp) 600); cbn [andb]; [eauto|lia].
Qed.

Lemma run_requests env : http_requests (snd (run env)) = [URL].
Proof.
  rewrite run_eq. unfold run_cases.
  destruct (http_get env URL) as [resp|e]; [|now rewrite handled_requests].
  destruct (requests.raise_for_status resp) as [[]|e]; [|now rewrite handled_requests].
  destruct (open_error env map_sql) as [msg|]; [now rewrite handled_requests|].
  cbv zeta.
  destruct (extract_value_strings (requests.text resp)) as [|raw raws]; [reflexivity|].
  destruct (traverse _ (raw :: raws)) as [parsed|e]; [|now rewrite handled_requests].
  destruct (open_error env output_file) as [msg|]; [now rewrite handled_requests|].
  cbn [snd]. rewrite !http_requests_app, http_requests_csv. reflexivity.
Qed.

(** C7, amended: when the GET returns a response with a 4xx or 5xx status,
    or [requests.get] raises a [RequestException] (a transport error), the
    run stops there: it prints the error on standard error and exits with
    status 1, having written nothing.  Any other exception raised during the
    run is printed on standard error as unexpected, and the exit status is 1.
    Every run makes exactly one request. *)
Theorem fetch_failure_aborts (env : Env) :
  (forall resp, http_get env URL = Ok resp ->
     (400 <= requests.status_code resp < 600)%Z ->
     exists msg,
       run env = (1%Z, fetch_trace ++ [Stderr (lit "Error fetching SQL: " ++ msg)]))
  /\ (forall e, http_get env URL = Raise e -> is_RequestException e = true ->
        run env = (1%Z, fetch_trace ++ [Stderr (lit "Error fetching SQL: " ++ exn_str e)]))
  /\ (forall e tr, main_body env [] = (Raise e, tr) ->
        is_RequestException e = false -> is_Exception e = true ->
        run env = (1%Z, tr ++ [Stderr (lit "Unexpected error: " ++ exn_str e)]))
  /\ http_requests (snd (run env)) = [URL].
Proof.
  split; [|split; [|split]].
  - intros resp Hget Hstatus.
    destruct (raise_for_status_error resp Hstatus) as [msg Hmsg].
    exists msg. rewrite run_eq. unfold run_cases. now rewrite Hget, Hmsg.
  - intros e Hget He. rewrite run_eq. unfold run_cases, handled.
    now rewrite Hget, He.
  - intros e tr Hbody Hreq Hexn. unfold run, main, try_except.
    rewrite Hbody, Hreq, Hexn. reflexivity.
  - apply run_requests.
Qed.

Lemma fetch_failure_aborts_witness :
  (exists msg,
     run (online 404 sample_sql)
     = (1%Z, fetch_trace ++ [Stderr (lit "Error fetching SQL: " ++ msg)]))
  /\ run (offline (RequestException (lit "timed out")))
     = (1%Z, fetch_trace ++ [Stderr (lit "Error fetching SQL: timed out")])
  /\ run (read_only sample_sql)
     = (1%Z, fetch_trace
             ++ [Stderr (lit "Saving fetched SQL to map.sql" ++ [ELLIPSIS]);
                 Stderr (lit "Unexpected error: [Errno 13] Permission denied")]).
Proof.
  split; [|split].
  - apply (proj1 (fetch_failure_aborts (online 404 sample_sql))
             (sample_response 404 sample_sql) eq_refl).
    split; [apply Z.leb_le|apply Z.ltb_lt]; reflexivity.
  - apply (proj1 (proj2 (fetch_failure_aborts
                           (offline (RequestException (lit "timed out")))))
             (RequestException (lit "timed out")) eq_refl eq_refl).
  - apply (proj1 (proj2 (proj2 (fetch_failure_aborts (read_only sample_sql))))
             (OSError (lit "[Errno 13] Permission denied"))
             (fetch_trace ++ [Stderr (lit "Saving fetched SQL to map.sql" ++ [ELLIPSIS])])
             eq_refl eq_refl eq_refl).
Defined.

(** ** The cache file *)



(** ** Order *)

(** C9: [extract_value_strings] returns the captured value strings in the
    order in which their statements stand in the text (the matches are found
    at strictly increasing offsets, each a well-formed statement at its
    offset), and whenever the run writes the CSV, its data lines are the
    lines of the records parsed from these strings, in the same order. *)
Theorem order_preserved (text : str) :
  let matches := re.finditer IGNORECASE INSERT_PATTERN text in
  extract_value_strings text = map snd matches
  /\ StronglySorted (fun a b => (fst a < fst b)%nat) matches
  /\ Forall (fun og => exists s rest,
               well_formed s = true
               /\ skipn (fst og) text = render s ++ rest
               /\ snd og = st_values s) matches
  /\ (forall env resp csv_text,
        http_get env URL = Ok resp -> requests.text resp = text ->
        file_content (snd (run env)) output_file = Some csv_text ->
        exists parsed,
          Forall2 (fun raw row => parse_record raw 16 = Ok row)
                  (map snd matches) parsed
          /\ csv_text = HEADER_LINE ++ concat (map row_line parsed)).
Proof.
  intros matches. split; [reflexivity|].
  destruct (scan_sound IGNORECASE INSERT_PATTERN match_here_progress text 0 0)
    as [Hall Hsorted].
  split; [exact Hsorted|]. split.
  - eapply Forall_impl; [|exact Hall]. intros [off g] [_ [rest Hm]].
    cbn [fst snd] in *. rewrite Nat.sub_0_r in Hm.
    apply match_here_inv in Hm as (s & Hwf & Hs & Hg). eauto.
  - intros env resp csv_text Hget Htext Hcsv.
    apply run_csv_content in Hcsv as (resp' & parsed & Hget' & _ & Ht & -> & _).
    rewrite Hget in Hget'. injection Hget' as <-. rewrite Htext in Ht.
    apply traverse_Forall2 in Ht. exists parsed. split; [exact Ht|reflexivity].
Qed.

Lemma order_preserved_witness :
  exists parsed,
    Forall2 (fun raw row => parse_record raw 16 = Ok row)
            (map snd (re.finditer IGNORECASE INSERT_PATTERN sample_sql)) parsed
    /\ HEADER_LINE ++ concat (map row_line sample_records)
       = HEADER_LINE ++ concat (map row_line parsed).
Proof.
  apply (proj2 (proj2 (proj2 (order_preserved sample_sql)))
           (online 200 sample_sql) (sample_response 200 sample_sql)).
  - reflexivity.
  - reflexivity.
  - vm_compute. reflexivity.
Defined.

(* ===================================================================== *)
(** * Further properties of [parse_record] *)
(* ===================================================================== *)

(** ** Any number of columns *)



(** ** Errors *)







(** ** Decoding a value string *)

(** Inside an unquoted field every character but the comma and the line
    breaks is added, the quote too. *)
Lemma feed_in_field_any f : forall r,
  csv.state r = csv.IN_FIELD ->
  forallb (fun c => negb ((c =? 44) || (c =? LF) || (c =? CR))%N) f = true ->
  fits (csv.field r ++ f) = true ->
  csv.feed record_dialect r f
  = Ok {| csv.state := csv.IN_FIELD; csv.fields := csv.fields r;
          csv.field := csv.field r ++ f |}.
Proof.
  induction f as [|c f IH]; intros r Hst Hf Hfit.
  - rewrite app_nil_r. destruct r; cbn in *. now subst.
  - cbn [forallb] in Hf. apply andb_true_iff in Hf as [Hc Hf].
    apply negb_true_iff in Hc.
    apply orb_false_iff in Hc as [Hc Hcr].
    apply orb_false_iff in Hc as [Hcomma Hlf].
    cbn [csv.feed]. unfold csv.parse_process_char. rewrite Hst.
    cbn [csv.is_newline csv.delimiter record_dialect]. rewrite Hlf, Hcr, Hcomma.
    cbn [orb]. rewrite parse_add_char_eq.
    change (c :: f) with ([c] ++ f) in Hfit. rewrite app_assoc in Hfit.
    rewrite (fits_app_l _ _ Hfit).
    rewrite IH; cbn [csv.state csv.field csv.fields]; try assumption.
    now rewrite <- app_assoc.
Qed.

(** Unquoted text where a field may begin. *)
Lemma feed_unquoted f r :
  at_start r -> unquoted f = true -> f <> [] -> fits f = true ->
  csv.feed record_dialect r f
  = Ok {| csv.state := csv.IN_FIELD; csv.fields := csv.fields r; csv.field := f |}.
Proof.
  intros [Hst Hfield] Hf Hne Hfit. destruct f as [|c f]; [congruence|].
  unfold unquoted in Hf. apply andb_true_iff in Hf as [Hall Hq].
  apply negb_true_iff in Hq.
  pose proof Hall as Hall'. cbn [forallb] in Hall'.
  apply andb_true_iff in Hall' as [Hc Hrest].
  apply negb_true_iff in Hc.
  apply orb_false_iff in Hc as [Hc Hcr].
  apply orb_false_iff in Hc as [Hcomma Hlf].
  assert (Hone : fits (csv.field r ++ [c]) = true).
  { rewrite Hfield. cbn [app]. change (c :: f) with ([c] ++ f) in Hfit.
    exact (fits_app_l _ _ Hfit). }
  assert (Hstep : csv.parse_process_char record_dialect r (csv.Ch c)
                  = Ok {| csv.state := csv.IN_FIELD; csv.fields := csv.fields r;
                          csv.field := [c] |}).
  { unfold csv.parse_process_char, csv.start_field, csv.add_then.
    destruct Hst as [Hst|Hst]; rewrite Hst;
      cbn [csv.is_newline csv.delimiter csv.quotechar csv.skipinitialspace
           record_dialect];
      rewrite Hlf, Hcr, Hcomma, Hq; cbn [orb andb];
      rewrite ?andb_false_r, parse_add_char_eq;
      cbn [csv.set_state csv.field csv.fields csv.state];
      rewrite Hfield in *; cbn [app] in *; rewrite Hone; reflexivity. }
  cbn [csv.feed]. rewrite Hstep.
  rewrite feed_in_field_any; cbn [csv.state csv.field csv.fields];
    try reflexivity; assumption.
Qed.

(** The content of a quoted field, its quotes doubled. *)
Lemma feed_doubled_quote f : forall r,
  csv.state r = csv.IN_QUOTED_FIELD ->
  fits (csv.field r ++ f) = true ->
  csv.feed record_dialect r (doubled_quote f)
  = Ok {| csv.state := csv.IN_QUOTED_FIELD; csv.fields := csv.fields r;
          csv.field := csv.field r ++ f |}.
Proof.
  induction f as [|c f IH]; intros r Hst Hfit.
  - rewrite app_nil_r. destruct r; cbn in *. now subst.
  - change (c :: f) with ([c] ++ f) in Hfit. rewrite app_assoc in Hfit.
    pose proof (fits_app_l _ _ Hfit) as Hone.
    change (doubled_quote (c :: f))
      with ((if (c =? 39)%N then [39%N; 39%N] else [c]) ++ doubled_quote f).
    rewrite feed_app.
    assert (Hstep : csv.feed record_dialect r
                      (if (c =? 39)%N then [39%N; 39%N] else [c])
                    = Ok {| csv.state := csv.IN_QUOTED_FIELD;
                            csv.fields := csv.fields r;
                            csv.field := csv.field r ++ [c] |}).
    { destruct (N.eqb_spec c 39) as [->|Hc].
      - cbn [csv.feed]. unfold csv.parse_process_char at 1. rewrite Hst.
        cbn [csv.quotechar csv.doublequote record_dialect N.eqb Pos.eqb].
        unfold csv.parse_process_char, csv.add_then.
        cbn [csv.set_state csv.state csv.quotechar record_dialect N.eqb Pos.eqb].
        rewrite parse_add_char_eq.
        cbn [csv.set_state csv.field csv.fields csv.state].
        rewrite Hone. reflexivity.
      - cbn [csv.feed]. unfold csv.parse_process_char. rewrite Hst.
        cbn [csv.quotechar record_dialect].
        apply N.eqb_neq in Hc. rewrite Hc, parse_add_char_eq, Hone, Hst.
        reflexivity. }
    rewrite Hstep, IH; cbn [csv.state csv.field csv.fields]; try assumption;
      try reflexivity.
    now rewrite <- app_assoc.
Qed.

(** A quoted field up to its closing quote. *)
Lemma feed_in_quotes f r :
  at_start r -> fits f = true ->
  csv.feed record_dialect r ([39%N] ++ doubled_quote f ++ [39%N])
  = Ok {| csv.state := csv.QUOTE_IN_QUOTED_FIELD; csv.fields := csv.fields r;
          csv.field := f |}.
Proof.
  intros [Hst Hfield] Hfit.
  assert (Hopen : csv.feed record_dialect r [39%N]
                  = Ok (csv.set_state csv.IN_QUOTED_FIELD r)).
  { cbn [csv.feed]. unfold csv.parse_process_char, csv.start_field.
    destruct Hst as [Hst|Hst]; rewrite Hst; reflexivity. }
  rewrite feed_app, Hopen, feed_app, feed_doubled_quote;
    cbn [csv.set_state csv.state csv.field csv.fields];
    rewrite ?Hfield; try reflexivity; assumption.
Qed.

Lemma feed_unclosed f r :
  at_start r -> fits f = true ->
  csv.feed record_dialect r ([39%N] ++ doubled_quote f)
  = Ok {| csv.state := csv.IN_QUOTED_FIELD; csv.fields := csv.fields r;
          csv.field := f |}.
Proof.
  intros [Hst Hfield] Hfit.
  assert (Hopen : csv.feed record_dialect r [39%N]
                  = Ok (csv.set_state csv.IN_QUOTED_FIELD r)).
  { cbn [csv.feed]. unfold csv.parse_process_char, csv.start_field.
    destruct Hst as [Hst|Hst]; rewrite Hst; reflexivity. }
  rewrite feed_app, Hopen, feed_doubled_quote;
    cbn [csv.set_state csv.state csv.field csv.fields];
    rewrite ?Hfield; try reflexivity; assumption.
Qed.

(** Text after a closing quote goes on with the field. *)
Lemma feed_after_quote rest r :
  csv.state r = csv.QUOTE_IN_QUOTED_FIELD ->
  unquoted rest = true -> rest <> [] ->
  fits (csv.field r ++ rest) = true ->
  csv.feed record_dialect r rest
  = Ok {| csv.state := csv.IN_FIELD; csv.fields := csv.fields r;
          csv.field := csv.field r ++ rest |}.
Proof.
  intros Hst Hf Hne Hfit. destruct rest as [|c rest]; [congruence|].
  unfold unquoted in Hf. apply andb_true_iff in Hf as [Hall Hq].
  apply negb_true_iff in Hq.
  cbn [forallb] in Hall. apply andb_true_iff in Hall as [Hc Hrest].
  apply negb_true_iff in Hc.
  apply orb_false_iff in Hc as [Hc Hcr].
  apply orb_false_iff in Hc as [Hcomma Hlf].
  change (c :: rest) with ([c] ++ rest) in Hfit. rewrite app_assoc in Hfit.
  pose proof (fits_app_l _ _ Hfit) as Hone.
  cbn [csv.feed]. unfold csv.parse_process_char, csv.add_then. rewrite Hst.
  cbn [csv.is_newline csv.delimiter csv.quotechar csv.strict record_dialect negb].
  rewrite Hq, Hcomma, Hlf, Hcr. cbn [orb].
  rewrite parse_add_char_eq, Hone.
  cbn [csv.set_state csv.state csv.field csv.fields].
  rewrite feed_in_field_any; cbn [csv.state csv.field csv.fields];
    try assumption; try reflexivity.
  cbn [csv.set_state csv.state csv.field csv.fields].
  now rewrite <- app_assoc.
Qed.

(** The comma that ends a field. *)
Lemma feed_comma r :
  (at_start r \/ csv.state r = csv.IN_FIELD
   \/ csv.state r = csv.QUOTE_IN_QUOTED_FIELD) ->
  csv.feed record_dialect r [44%N]
  = Ok {| csv.state := csv.START_FIELD; csv.fields := csv.fields r ++ [csv.field r];
          csv.field := [] |}.
Proof.
  cbn [csv.feed]. unfold csv.parse_process_char, csv.start_field.
  intros [[[H|H] _]|[H|H]]; rewrite H; cbn;
    unfold csv.parse_save_field, csv.set_state; cbn; rewrite ?H; reflexivity.
Qed.

(** The end of the line after the last field. *)
Lemma process_eol_field r :
  csv.state r = csv.START_FIELD \/ csv.state r = csv.IN_FIELD
  \/ csv.state r = csv.QUOTE_IN_QUOTED_FIELD ->
  csv.parse_process_char record_dialect r csv.EOL
  = Ok {| csv.state := csv.START_RECORD; csv.fields := csv.fields r ++ [csv.field r];
          csv.field := [] |}.
Proof.
  unfold csv.parse_process_char, csv.start_field.
  intros [H|[H|H]]; rewrite H; cbn;
    unfold csv.end_of_line, csv.parse_save_field, csv.set_state; cbn;
    rewrite ?H; reflexivity.
Qed.

Lemma in_quotes_text f rest :
  written_text (InQuotes f rest) = ([39%N] ++ doubled_quote f ++ [39%N]) ++ rest.
Proof. cbn [written_text]. now rewrite <- !app_assoc. Qed.

(** A field that is not the last one, and its comma. *)
Lemma feed_written w r :
  at_start r -> written_ok false w = true -> fits (decoded w) = true ->
  csv.feed record_dialect r (written_text w ++ [44%N])
  = Ok {| csv.state := csv.START_FIELD; csv.fields := csv.fields r ++ [decoded w];
          csv.field := [] |}.
Proof.
  intros Hr Hok Hfit. destruct w as [f|f rest|f]; cbn [written_ok] in Hok;
    rewrite ?in_quotes_text; cbn [written_text decoded] in *; [| |discriminate Hok].
  - destruct f as [|c f].
    + cbn [app]. rewrite feed_comma by auto. destruct Hr as [_ ->]. reflexivity.
    + rewrite feed_app.
      rewrite (feed_unquoted (c :: f) r Hr Hok ltac:(discriminate) Hfit).
      rewrite feed_comma by (cbn; auto). reflexivity.
  - rewrite feed_app, feed_app.
    rewrite (feed_in_quotes f r Hr (fits_app_l _ _ Hfit)).
    destruct rest as [|c rest].
    + cbn [csv.feed]. rewrite app_nil_r.
      change (match csv.parse_process_char record_dialect
                      {| csv.state := csv.QUOTE_IN_QUOTED_FIELD;
                         csv.fields := csv.fields r; csv.field := f |} (csv.Ch 44%N)
              with Ok r' => Ok r' | Raise e => Raise e end)
        with (csv.feed record_dialect
                {| csv.state := csv.QUOTE_IN_QUOTED_FIELD;
                   csv.fields := csv.fields r; csv.field := f |} [44%N]).
      rewrite feed_comma by (cbn; auto). reflexivity.
    + rewrite (feed_after_quote (c :: rest)); cbn [csv.state csv.fields csv.field];
        [|reflexivity|exact Hok|discriminate|exact Hfit].
      rewrite feed_comma by (cbn; auto). reflexivity.
Qed.

(** The last field of the string, and the end of the input. *)
Lemma iternext_last w r :
  at_start r -> written_ok true w = true -> fits (decoded w) = true ->
  csv.state r = csv.START_FIELD \/ w <> Unquoted [] ->
  csv.iternext_loop record_dialect r [written_text w]
  = (Ok (csv.fields r ++ [decoded w]), []).
Proof.
  intros Hr Hok Hfit Hcase. cbn [csv.iternext_loop].
  destruct w as [f|f rest|f]; cbn [written_ok] in Hok;
    rewrite ?in_quotes_text; cbn [written_text decoded] in *.
  - destruct f as [|c f].
    + destruct Hcase as [Hst|Hne]; [|congruence].
      cbn [csv.feed]. rewrite process_eol_field by auto.
      destruct Hr as [_ ->]. reflexivity.
    + rewrite (feed_unquoted (c :: f) r Hr Hok ltac:(discriminate) Hfit).
      rewrite process_eol_field by (cbn; auto). reflexivity.
  - rewrite feed_app.
    rewrite (feed_in_quotes f r Hr (fits_app_l _ _ Hfit)).
    destruct rest as [|c rest].
    + cbn [csv.feed]. rewrite app_nil_r.
      rewrite process_eol_field by (cbn; auto). reflexivity.
    + rewrite (feed_after_quote (c :: rest)); cbn [csv.state csv.fields csv.field];
        [|reflexivity|exact Hok|discriminate|exact Hfit].
      rewrite process_eol_field by (cbn; auto). reflexivity.
  - rewrite (feed_unclosed f r Hr Hfit).
    unfold csv.parse_process_char. cbn [csv.state csv.field csv.fields].
    rewrite orb_true_r. reflexivity.
Qed.

Lemma written_list_cons w w' ws :
  written_list (w :: w' :: ws) = (written_text w ++ [44%N]) ++ written_list (w' :: ws).
Proof. cbn [written_list]. now rewrite <- app_assoc. Qed.

Lemma iternext_written ws : forall r,
  at_start r -> ws <> [] ->
  all_ok ws = true ->
  forallb (fun w => fits (decoded w)) ws = true ->
  csv.state r = csv.START_FIELD \/ ws <> [Unquoted []] ->
  csv.iternext_loop record_dialect r [written_list ws]
  = (Ok (csv.fields r ++ map decoded ws), []).
Proof.
  induction ws as [|w ws IH]; intros r Hr Hne Hok Hfit Hcase; [congruence|].
  destruct ws as [|w' ws].
  - cbn [written_list map]. cbn [all_ok] in Hok. cbn [forallb] in Hfit.
    apply andb_true_iff in Hfit as [Hfit _].
    apply iternext_last; try assumption.
    destruct Hcase as [H|H]; [now left|right; congruence].
  - rewrite written_list_cons.
    cbn [all_ok] in Hok. apply andb_true_iff in Hok as [Hw Hok].
    cbn [forallb] in Hfit. apply andb_true_iff in Hfit as [Hfw Hfit].
    rewrite (iternext_head _ _ _ _ _ _ (feed_written w r Hr Hw Hfw)).
    rewrite IH; cbn [csv.state csv.fields csv.field]; try assumption.
    + cbn [map]. now rewrite <- app_assoc.
    + split; [now right|reflexivity].
    + discriminate.
    + now left.
Qed.

(** The fields the reader makes of a value string; the empty string gives
    no field at all, which makes no difference once the record is padded. *)
Lemma reader_written ws :
  all_ok ws = true ->
  forallb (fun w => fits (decoded w)) ws = true ->
  exists fields,
    fst (csv.reader_next record_dialect [written_list ws]) = Ok fields
    /\ sixteen fields = sixteen (map decoded ws).
Proof.
  intros Hok Hfit.
  destruct ws as [|w ws]; [exists []; split; reflexivity|].
  assert (Hcases : w :: ws = [Unquoted []] \/ w :: ws <> [Unquoted []]).
  { destruct ws as [|w' ws]; [|right; discriminate].
    destruct w as [[|c f]|f rest|f]; try (right; discriminate). now left. }
  destruct Hcases as [->|Hne]; [exists []; split; reflexivity|].
  exists (map decoded (w :: ws)). split; [|reflexivity].
  unfold csv.reader_next. rewrite iternext_written; try assumption.
  - reflexivity.
  - exact at_start_reset.
  - discriminate.
  - now right.
Qed.

(** X3: [parse_record] splits a value string at the commas outside quotes
    and decodes each field.  Unquoted text is taken as it is, a quote inside
    it being an ordinary character; a field between single quotes has its
    doubled quotes halved and keeps its commas and line breaks, and text
    after the closing quote, up to the next comma, is appended to it (a
    backslash does not escape a quote); an opening quote that is never
    closed takes the rest of the string.  The record is these fields, padded
    or cut to 16. *)
Theorem parse_record_decodes (ws : list written) :
  all_ok ws = true ->
  forallb (fun w => fits (decoded w)) ws = true ->
  parse_record (written_list ws) 16 = Ok (sixteen (map decoded ws)).
Proof.
  intros Hok Hfit.
  destruct (reader_written ws Hok Hfit) as (fields & Hread & <-).
  unfold sixteen. apply parse_record_ok. exact Hread.
Qed.

Lemma parse_record_decodes_witness :
  parse_record (lit "1,'it''s','O\'Brien','a,b'x, 'c,d','e,f") 16
  = Ok (sixteen [lit "1"; lit "it's"; lit "O\Brien'"; lit "a,bx";
                 lit " 'c"; lit "d'"; lit "e,f"]).
Proof.
  apply (parse_record_decodes
           [Unquoted (lit "1"); InQuotes (lit "it's") [];
            InQuotes (lit "O\") (lit "Brien'"); InQuotes (lit "a,b") (lit "x");
            Unquoted (lit " 'c"); Unquoted (lit "d'"); Unclosed (lit "e,f")]);
    reflexivity.
Defined.

(* ===================================================================== *)
(** * Extraction and parsing together *)
(* ===================================================================== *)

Lemma extracted_single_line text raw :
  In raw (extract_value_strings text) -> single_line raw = true.
Proof.
  intros H. apply findall_in in H as (off & rest & Hm).
  apply match_here_inv in Hm as (s & Hwf & _ & <-).
  unfold well_formed in Hwf.
  apply andb_true_iff in Hwf as [Hwf _].
  now apply andb_true_iff in Hwf as [_ Hwf].
Qed.

Lemma no_linebreak_split s :
  single_line s = true ->
  forallb (fun c => negb (c =? CR)%N) s = true ->
  no_linebreak s = true.
Proof.
  unfold single_line, no_linebreak. intros H1 H2.
  apply forallb_forall. intros c Hc.
  rewrite forallb_forall in H1, H2.
  specialize (H1 c Hc). specialize (H2 c Hc).
  apply negb_true_iff in H1, H2. now rewrite H1, H2.
Qed.

Lemma traverse_all {A B} (f : A -> outcome B) (P : B -> Prop) l :
  Forall (fun x => exists y, f x = Ok y /\ P y) l ->
  exists ys, traverse f l = Ok ys /\ length ys = length l /\ Forall P ys.
Proof.
  induction 1 as [|x l (y & Hy & Py) _ (ys & Hys & Hlen & HP)].
  - exists []. repeat split. constructor.
  - exists (y :: ys). cbn [traverse]. rewrite Hy, Hys.
    repeat split; [cbn; now rewrite Hlen|now constructor].
Qed.


(** X4: the value strings the pattern extracts never hold a line feed, so
    parsing them can only fail on a carriage return or on a field beyond the
    size limit: when no extracted value string holds a carriage return or is
    longer than 131072 characters, every one of them is parsed, into a
    record of 16 fields. *)
Theorem extracted_records_parse (text : str) :
  forallb (fun raw => forallb (fun c => negb (c =? CR)%N) raw && fits raw)
          (extract_value_strings text) = true ->
  exists parsed,
    traverse (fun rec => parse_record rec 16%Z) (extract_value_strings text)
    = Ok parsed
    /\ length parsed = length (extract_value_strings text)
    /\ Forall (fun row => length row = 16%nat) parsed.
Proof.
  intros H. apply traverse_all.
  rewrite forallb_forall in H. apply Forall_forall. intros raw Hin.
  destruct (proj1 (andb_true_iff _ _) (H raw Hin)) as [Hcr Hfit].
  apply parse_record_single_line; [|assumption].
  apply no_linebreak_split; [|assumption].
  eapply extracted_single_line, Hin.
Qed.

Lemma extracted_records_parse_witness :
  exists parsed,
    traverse (fun rec => parse_record rec 16%Z) (extract_value_strings sample_sql)
    = Ok parsed
    /\ length parsed = length (extract_value_strings sample_sql)
    /\ Forall (fun row => length row = 16%nat) parsed.
Proof.
  apply (extracted_records_parse sample_sql).
  vm_compute. reflexivity.
Defined.

(* ===================================================================== *)
(** * Further properties of [write_csv] *)
(* ===================================================================== *)



(* ===================================================================== *)
(** * Further properties of [main] *)
(* ===================================================================== *)





(** ** Files that cannot be written *)



(** ** What the exit status tells *)







(** ** From the dump to the CSV *)






(* ===================================================================== *)
(** * Statements with several rows *)
(* ===================================================================== *)

Lemma single_line_app a b :
  single_line (a ++ b) = single_line a && single_line b.
Proof. unfold single_line. apply forallb_app. Qed.

(** The separator of two rows closes no statement. *)
Lemma has_close_rows a b :
  has_close a = false ->
  has_close (a ++ lit "),(" ++ b) = has_close b.
Proof.
  induction a as [|c a IH]; intros Ha.
  - cbn [app]. change (lit "),(" ++ b) with (41%N :: 44%N :: 40%N :: b).
    cbn [has_close closes N.eqb Pos.eqb andb orb].
    destruct b as [|c1 [|c2 b]]; cbn [closes N.eqb Pos.eqb andb orb]; reflexivity.
  - cbn [has_close] in Ha. apply orb_false_iff in Ha as [Hc Ha].
    cbn [app has_close]. rewrite (IH Ha).
    destruct a as [|c2 a].
    + cbn [app]. change (lit "),(" ++ b) with (41%N :: 44%N :: 40%N :: b).
      cbn [closes N.eqb Pos.eqb]. now rewrite andb_false_r.
    + cbn [app closes] in *. now rewrite Hc.
Qed.

Lemma rows_text_cons row row' rows :
  rows_text (row :: row' :: rows) = row ++ lit "),(" ++ rows_text (row' :: rows).
Proof. reflexivity. Qed.

Lemma rows_text_one_line rows :
  Forall (fun r => single_line r = true /\ has_close r = false) rows ->
  single_line (rows_text rows) = true /\ has_close (rows_text rows) = false.
Proof.
  induction 1 as [|row rows [Hl Hc] Hrows IH]; [split; reflexivity|].
  destruct rows as [|row' rows]; [now split|].
  rewrite rows_text_cons. destruct IH as [IHl IHc]. split.
  - rewrite !single_line_app, Hl, IHl. reflexivity.
  - now rewrite has_close_rows.
Qed.

Lemma extract_statement s :
  well_formed s = true -> extract_value_strings (render s) = [st_values s].
Proof.
  intros H. unfold extract_value_strings, re.findall, re.finditer.
  rewrite <- (app_nil_r (render s)), (scan_hit s [] 0 H), scan_end. reflexivity.
Qed.

Lemma written_list_snoc pre w :
  written_list (pre ++ [w]) = written_leading pre ++ written_text w.
Proof.
  induction pre as [|p pre IH]; [reflexivity|].
  unfold written_leading. cbn [map concat app]. fold (written_leading pre).
  rewrite <- !app_assoc, <- IH. cbn [written_list].
  destruct (pre ++ [w]) eqn:E; [destruct pre; discriminate E|reflexivity].
Qed.

Lemma feed_written_leading pre : forall r,
  at_start r -> pre <> [] ->
  forallb (written_ok false) pre = true ->
  forallb (fun w => fits (decoded w)) pre = true ->
  csv.feed record_dialect r (written_leading pre)
  = Ok {| csv.state := csv.START_FIELD; csv.fields := csv.fields r ++ map decoded pre;
          csv.field := [] |}.
Proof.
  induction pre as [|w pre IH]; intros r Hr Hne Hok Hfit; [congruence|].
  cbn [forallb] in Hok, Hfit.
  apply andb_true_iff in Hok as [Hw Hok]. apply andb_true_iff in Hfit as [Hfw Hfit].
  unfold written_leading. cbn [map concat]. fold (written_leading pre).
  rewrite feed_app, (feed_written w r Hr Hw Hfw).
  destruct pre as [|w' pre].
  - cbn [written_leading map concat csv.feed]. reflexivity.
  - rewrite IH; cbn [csv.state csv.fields csv.field]; try assumption.
    + cbn [map]. now rewrite <- app_assoc.
    + split; [now right|reflexivity].
    + discriminate.
Qed.

Lemma close_paren_text w :
  written_text (close_paren w) = written_text w ++ [41%N].
Proof.
  destruct w as [f|f rest|f]; cbn [close_paren written_text];
    rewrite <- ?app_assoc; try reflexivity.
  (* an unclosed quote takes the parenthesis into its content *)
  unfold doubled_quote. rewrite flat_map_app. reflexivity.
Qed.

Lemma close_paren_decoded w : decoded (close_paren w) = decoded w ++ [41%N].
Proof. destruct w; cbn [close_paren decoded]; now rewrite <- ?app_assoc. Qed.

Lemma unquoted_close_paren f : unquoted f = true -> unquoted (f ++ [41%N]) = true.
Proof.
  unfold unquoted. intros H. apply andb_true_iff in H as [Hall Hq].
  rewrite forallb_app, Hall. destruct f; cbn; [reflexivity|exact Hq].
Qed.

Lemma close_paren_ok w :
  written_ok false w = true -> written_ok false (close_paren w) = true.
Proof.
  destruct w as [f|f rest|f]; cbn [close_paren written_ok];
    try apply unquoted_close_paren; auto.
Qed.

(** The reader on the first row of several: its sixteen fields, the last one
    with the parenthesis that closes the row, and whatever the other rows
    give. *)
Lemma reader_first_row row1 more fields :
  length row1 = 16%nat ->
  forallb (written_ok false) row1 = true ->
  forallb (fun w => fits (decoded w ++ [41%N])) row1 = true ->
  fst (csv.reader_next record_dialect [written_list row1 ++ lit "),(" ++ more])
  = Ok fields ->
  exists ext,
    fields = (firstn 15 (map decoded row1)
              ++ [decoded (last row1 (Unquoted [])) ++ [41%N]]) ++ ext.
Proof.
  intros Hlen Hok Hfit.
  assert (Hne : row1 <> []) by (destruct row1; [discriminate Hlen|discriminate]).
  pose proof (app_removelast_last (Unquoted []) Hne) as Hrow.
  set (pre := removelast row1) in *. set (w := last row1 (Unquoted [])) in *.
  clearbody pre w. subst row1. clear Hne.
  rewrite forallb_app in Hok, Hfit. cbn [forallb] in Hok, Hfit.
  apply andb_true_iff in Hok as [Hpre Hw]. rewrite andb_true_r in Hw.
  apply andb_true_iff in Hfit as [Hfpre Hfw]. rewrite andb_true_r in Hfw.
  rewrite length_app in Hlen. cbn [length] in Hlen.
  assert (Hl15 : length pre = 15%nat) by lia.
  assert (Htext : written_list (pre ++ [w]) ++ lit "),(" ++ more
                  = written_leading (pre ++ [close_paren w]) ++ (40%N :: more)).
  { rewrite written_list_snoc. unfold written_leading.
    rewrite map_app, concat_app. cbn [map concat].
    rewrite close_paren_text, app_nil_r, <- !app_assoc. reflexivity. }
  rewrite Htext. unfold csv.reader_next.
  erewrite iternext_head.
  2:{ apply feed_written_leading.
      - exact at_start_reset.
      - destruct pre; discriminate.
      - rewrite forallb_app, Hpre. cbn [forallb]. now rewrite close_paren_ok.
      - rewrite forallb_app. cbn [forallb]. rewrite close_paren_decoded, Hfw.
        rewrite andb_true_r. apply forallb_forall. intros x Hx.
        rewrite forallb_forall in Hfpre. exact (fits_app_l _ _ (Hfpre x Hx)). }
  destruct (csv.iternext_loop _ _ _) as [[fs|e] rest] eqn:E; cbn [fst];
    [|discriminate].
  intros [= <-]. apply iternext_extends in E as [ext ->].
  exists ext. cbn [csv.fields csv.parse_reset app]. f_equal.
  rewrite !map_app, firstn_app, length_map, Hl15. cbn [map].
  rewrite close_paren_decoded.
  rewrite firstn_all2 by (rewrite length_map; lia).
  rewrite Nat.sub_diag. cbn [firstn]. now rewrite app_nil_r.
Qed.

(** X10: an INSERT statement with several rows, [(row),(row),...;], gives
    one record, not one per row.  The pattern captures the text of all the
    rows, separators included, as a single value string; when the first row
    has 16 fields, the record parsed from it is these 16 fields, the last
    one with the parenthesis that closes the row, and the other rows are
    cut off. *)
Theorem extended_insert_one_record (kw sp : str) (row1 : list written)
        (rows : list str) :
  keyword_variant kw = true ->
  forallb re.is_space sp = true ->
  Forall (fun r => single_line r = true /\ has_close r = false)
         (written_list row1 :: rows) ->
  rows <> [] ->
  length row1 = 16%nat ->
  forallb (written_ok false) row1 = true ->
  forallb (fun w => fits (decoded w ++ [41%N])) row1 = true ->
  let values := rows_text (written_list row1 :: rows) in
  extract_value_strings
    (render {| st_keyword := kw; st_space := sp; st_values := values |})
  = [values]
  /\ (forall r, parse_record values 16 = Ok r ->
        r = firstn 15 (map decoded row1)
            ++ [decoded (last row1 (Unquoted [])) ++ [41%N]])
  /\ (forallb (fun c => negb (c =? CR)%N) values = true -> fits values = true ->
      exists r, parse_record values 16 = Ok r).
Proof.
  intros Hkw Hsp Hrows Hne Hlen Hok Hfit values.
  destruct (rows_text_one_line _ Hrows) as [Hline Hclose].
  fold values in Hline, Hclose.
  split; [|split].
  - apply (extract_statement {| st_keyword := kw; st_space := sp;
                                st_values := values |}).
    unfold well_formed. cbn [st_keyword st_space st_values].
    now rewrite Hkw, Hsp, Hline, Hclose.
  - intros r Hr. subst values. destruct rows as [|row rows]; [congruence|].
    rewrite rows_text_cons in Hr.
    destruct (fst (csv.reader_next record_dialect
                     [written_list row1 ++ lit "),(" ++ rows_text (row :: rows)]))
      as [fields|e] eqn:E.
    2:{ rewrite (parse_record_raises _ _ E) in Hr. discriminate Hr. }
    pose proof (parse_record_ok_inv _ _ _ E Hr) as ->.
    destruct (reader_first_row row1 _ fields Hlen Hok Hfit E) as [ext ->].
    set (first := firstn 15 (map decoded row1)
                  ++ [decoded (last row1 (Unquoted [])) ++ [41%N]]).
    assert (Hl : length first = 16%nat).
    { unfold first. rewrite length_app, length_firstn, length_map, Hlen.
      reflexivity. }
    rewrite <- app_assoc, firstn_app, Hl, Nat.sub_diag.
    rewrite firstn_O, app_nil_r. apply firstn_all2. lia.
  - intros Hcr Hfits. destruct (parse_record_single_line values) as (r & Hr & _);
      [now apply no_linebreak_split|assumption|eauto].
Qed.

Lemma extended_insert_one_record_witness :
  extract_value_strings
    (lit "INSERT INTO `x_world` VALUES (1,2,3,4,5,6,7,8,9,10,11,12,13,14,15,'p'),(21,22,23,24,25,26,27,28,29,30,31,32,33,34,35,'q');")
  = [lit "1,2,3,4,5,6,7,8,9,10,11,12,13,14,15,'p'),(21,22,23,24,25,26,27,28,29,30,31,32,33,34,35,'q'"]
  /\ (forall r,
        parse_record (lit "1,2,3,4,5,6,7,8,9,10,11,12,13,14,15,'p'),(21,22,23,24,25,26,27,28,29,30,31,32,33,34,35,'q'") 16 = Ok r ->
        r = map lit ["1"; "2"; "3"; "4"; "5"; "6"; "7"; "8"; "9"; "10"; "11";
                     "12"; "13"; "14"; "15"; "p)"]%string).
Proof.
  pose proof (extended_insert_one_record KEYWORD (lit " ")
                (map (fun s => Unquoted (lit s))
                     ["1"; "2"; "3"; "4"; "5"; "6"; "7"; "8"; "9"; "10"; "11";
                      "12"; "13"; "14"; "15"]%string ++ [InQuotes (lit "p") []])
                [lit "21,22,23,24,25,26,27,28,29,30,31,32,33,34,35,'q'"]
                eq_refl eq_refl) as H.
  destruct H as (H1 & H2 & _); try reflexivity.
  - repeat constructor.
  - discriminate.
  - split; [exact H1|exact H2].
Defined.

(* ===================================================================== *)
(** * The switch [from_file] *)
(* ===================================================================== *)

Lemma main_body_with_from_file : main_body = main_body_with from_file.
Proof. reflexivity. Qed.

Lemma run_with_from_file env : run env = run_with from_file env.
Proof. reflexivity. Qed.







(* ===================================================================== *)
(** * How the extraction composes *)
(* ===================================================================== *)

(** The texts found do not depend on the offset the scan starts counting
    from. *)
Lemma scan_offset ic p t : forall off off' skip,
  map snd (re.scan ic p off skip t) = map snd (re.scan ic p off' skip t).
Proof.
  induction t as [|c t IH]; intros off off' skip.
  - cbn [re.scan]. destruct skip; [|reflexivity].
    destruct (re.match_here ic p false []) as [[g rest]|]; reflexivity.
  - cbn [re.scan]. destruct skip as [|k]; [|apply IH].
    destruct (re.match_here ic p false (c :: t)) as [[g rest]|]; [|apply IH].
    destruct (length rest =? length (c :: t))%nat.
    + cbn [map snd]. f_equal.
      destruct (re.match_here ic p true (c :: t)) as [[g' rest']|]; [|apply IH].
      cbn [map snd]. f_equal. apply IH.
    + cbn [map snd]. f_equal. apply IH.
Qed.

(** X12: extraction goes through a text piece by piece.  Text in which the
    keyword begins nowhere contributes nothing; a well-formed statement at
    the head of a text contributes its value list, and the extraction goes
    on with the text after it, whatever that text is. *)
Theorem extraction_composes (gap : str) (s : statement) (rest : str) :
  (quiet gap rest = true ->
   extract_value_strings (gap ++ rest) = extract_value_strings rest)
  /\ (well_formed s = true ->
      extract_value_strings (render s ++ rest)
      = st_values s :: extract_value_strings rest).
Proof.
  unfold extract_value_strings, re.findall, re.finditer. split; intros H.
  - rewrite (scan_quiet gap rest 0 H). apply scan_offset.
  - rewrite (scan_hit s rest 0 H). cbn [map snd]. f_equal. apply scan_offset.
Qed.

(* ===================================================================== *)
(** * The characters of the fields *)
(* ===================================================================== *)

Lemma Subseq_refl {A} (l : list A) : Subseq l l.
Proof. induction l; constructor; assumption. Qed.

Lemma Subseq_nil_l {A} (l : list A) : Subseq [] l.
Proof. induction l; constructor; assumption. Qed.

Lemma Subseq_app {A} (a b a' b' : list A) :
  Subseq a b -> Subseq a' b' -> Subseq (a ++ a') (b ++ b').
Proof. induction 1; intros H'; cbn [app]; try constructor; auto. Qed.

Lemma Subseq_snoc {A} (a b : list A) c : Subseq a b -> Subseq (a ++ [c]) (b ++ [c]).
Proof. intros H. apply Subseq_app; [exact H|apply Subseq_refl]. Qed.

Lemma Subseq_drop {A} (a b : list A) c : Subseq a b -> Subseq a (b ++ [c]).
Proof.
  intros H. rewrite <- (app_nil_r a). apply Subseq_app; [exact H|].
  apply Subseq_nil_l.
Qed.

Lemma Subseq_trans {A} (a b c : list A) : Subseq a b -> Subseq b c -> Subseq a c.
Proof.
  intros Hab Hbc. revert a Hab.
  induction Hbc as [|x b c Hbc IH|y b c Hbc IH]; intros a Hab.
  - exact Hab.
  - inversion Hab; subst; constructor; auto.
  - constructor. auto.
Qed.

Lemma Subseq_In {A} (a b : list A) x : Subseq a b -> In x a -> In x b.
Proof.
  induction 1 as [|y a b H IH|y a b H IH]; cbn [In]; intros Hin; auto.
  destruct Hin; auto.
Qed.

Lemma kept_save r : kept (csv.parse_save_field r) = kept r.
Proof.
  unfold kept, csv.parse_save_field. cbn [csv.fields csv.field].
  rewrite concat_app. cbn [concat]. now rewrite !app_nil_r.
Qed.

Lemma kept_set_state s r : kept (csv.set_state s r) = kept r.
Proof. reflexivity. Qed.

Lemma kept_end_of_line i r : kept (csv.end_of_line i r) = kept r.
Proof. unfold csv.end_of_line. now rewrite kept_set_state, kept_save. Qed.

Lemma kept_add r c r' :
  csv.parse_add_char r c = Ok r' -> kept r' = kept r ++ [c].
Proof.
  unfold csv.parse_add_char.
  destruct (_ <=? _)%N; [discriminate|]. intros [= <-].
  unfold kept. cbn [csv.fields csv.field]. now rewrite app_assoc.
Qed.

Lemma kept_add_then s r c r' :
  csv.add_then s r c = Ok r' -> kept r' = kept r ++ [c].
Proof.
  unfold csv.add_then.
  destruct (csv.parse_add_char r c) as [r1|e] eqn:E; [|discriminate].
  intros [= <-]. rewrite kept_set_state. eapply kept_add, E.
Qed.

Lemma kept_start_field d r i r' :
  csv.start_field d r i = Ok r' ->
  kept r' = kept r \/ exists c, i = csv.Ch c /\ kept r' = kept r ++ [c].
Proof.
  unfold csv.start_field. destruct i as [c|].
  - destruct (csv.is_newline (csv.Ch c)).
    { intros [= <-]. left. apply kept_end_of_line. }
    destruct (c =? csv.quotechar d)%N.
    { intros [= <-]. now left. }
    destruct ((c =? 32)%N && csv.skipinitialspace d).
    { intros [= <-]. now left. }
    destruct (c =? csv.delimiter d)%N.
    { intros [= <-]. left. apply kept_save. }
    intros H. right. exists c. split; [reflexivity|]. eapply kept_add_then, H.
  - intros [= <-]. left. apply kept_end_of_line.
Qed.

(** A step of the reader keeps the character it is given, or leaves it
    out. *)
Lemma kept_process d r i r' :
  csv.parse_process_char d r i = Ok r' ->
  kept r' = kept r \/ exists c, i = csv.Ch c /\ kept r' = kept r ++ [c].
Proof.
  unfold csv.parse_process_char.
  destruct (csv.state r).
  - destruct i as [c|]; [|intros [= <-]; now left].
    destruct (csv.is_newline (csv.Ch c)); [intros [= <-]; now left|].
    intros H. apply kept_start_field in H. now rewrite kept_set_state in H.
  - apply kept_start_field.
  - destruct i as [c|]; [|intros [= <-]; left; apply kept_end_of_line].
    destruct (csv.is_newline (csv.Ch c));
      [intros [= <-]; left; apply kept_end_of_line|].
    destruct (c =? csv.delimiter d)%N.
    { intros [= <-]. left. now rewrite kept_set_state, kept_save. }
    intros H. right. exists c. split; [reflexivity|]. eapply kept_add, H.
  - destruct i as [c|]; [|intros [= <-]; now left].
    destruct (c =? csv.quotechar d)%N; [intros [= <-]; now left|].
    intros H. right. exists c. split; [reflexivity|]. eapply kept_add, H.
  - destruct i as [c|]; [|intros [= <-]; left; apply kept_end_of_line].
    destruct (c =? csv.quotechar d)%N.
    { intros H. right. exists c. split; [reflexivity|]. eapply kept_add_then, H. }
    destruct (c =? csv.delimiter d)%N.
    { intros [= <-]. left. now rewrite kept_set_state, kept_save. }
    destruct (csv.is_newline (csv.Ch c));
      [intros [= <-]; left; apply kept_end_of_line|].
    destruct (negb (csv.strict d)); [|discriminate].
    intros H. right. exists c. split; [reflexivity|]. eapply kept_add_then, H.
  - destruct i as [c|]; [|intros [= <-]; now left].
    destruct (csv.is_newline (csv.Ch c)); [|discriminate].
    intros [= <-]. now left.
Qed.

Lemma kept_feed d line : forall r r' seen,
  Subseq (kept r) seen ->
  csv.feed d r line = Ok r' ->
  Subseq (kept r') (seen ++ line).
Proof.
  induction line as [|c line IH]; intros r r' seen Hseen; cbn [csv.feed].
  - intros [= <-]. now rewrite app_nil_r.
  - destruct (csv.parse_process_char d r (csv.Ch c)) as [r1|e] eqn:E;
      [|discriminate].
    intros H. change (c :: line) with ([c] ++ line). rewrite app_assoc.
    apply (IH r1); [|exact H].
    destruct (kept_process _ _ _ _ E) as [->|(c' & [= <-] & ->)].
    + now apply Subseq_drop.
    + now apply Subseq_snoc.
Qed.

Lemma Subseq_fields r : Subseq (concat (csv.fields r)) (kept r).
Proof.
  unfold kept. rewrite <- (app_nil_r (concat (csv.fields r))) at 1.
  apply Subseq_app; [apply Subseq_refl|apply Subseq_nil_l].
Qed.

Lemma kept_iternext d lines : forall r seen fs rest,
  Subseq (kept r) seen ->
  csv.iternext_loop d r lines = (Ok fs, rest) ->
  Subseq (concat fs) (seen ++ concat lines).
Proof.
  induction lines as [|line lines IH]; intros r seen fs rest Hseen;
    cbn [csv.iternext_loop].
  - destruct (_ || _); [|discriminate].
    destruct (csv.strict d); [discriminate|].
    intros [= <- _]. cbn [concat]. rewrite app_nil_r.
    change (Subseq (concat (csv.fields (csv.parse_save_field r))) seen).
    eapply Subseq_trans; [apply Subseq_fields|].
    now rewrite kept_save.
  - destruct (csv.feed d r line) as [r1|e] eqn:E1; [|discriminate].
    destruct (csv.parse_process_char d r1 csv.EOL) as [r2|e] eqn:E2;
      [|discriminate].
    pose proof (kept_feed _ _ _ _ _ Hseen E1) as H1.
    assert (H2 : kept r2 = kept r1).
    { destruct (kept_process _ _ _ _ E2) as [H|(c & Hc & _)];
        [exact H|discriminate Hc]. }
    rewrite <- H2 in H1. cbn [concat]. rewrite app_assoc.
    destruct (csv.state r2) eqn:Est;
      try (apply (IH r2); exact H1).
    intros [= <- _].
    eapply Subseq_trans; [apply Subseq_fields|].
    rewrite <- (app_nil_r (kept r2)).
    apply Subseq_app; [exact H1|apply Subseq_nil_l].
Qed.

Lemma Subseq_firstn {A} n : forall (l : list (list A)),
  Subseq (concat (firstn n l)) (concat l).
Proof.
  induction n as [|n IH]; intros l; cbn [firstn]; [apply Subseq_nil_l|].
  destruct l as [|x l]; [constructor|].
  cbn [concat]. apply Subseq_app; [apply Subseq_refl|apply IH].
Qed.

Lemma concat_padded (fields : list str) k : concat (fields ++ repeat [] k) = concat fields.
Proof.
  rewrite concat_app. induction k as [|k IH]; cbn [repeat concat app] in *;
    [apply app_nil_r|exact IH].
Qed.

Lemma parse_record_subseq s n r :
  parse_record s n = Ok r -> Subseq (concat r) s.
Proof.
  unfold parse_record, csv.reader_next.
  destruct (csv.iternext_loop record_dialect csv.parse_reset [s])
    as [[fields|e] rest] eqn:E; cbn [fst]; [|discriminate].
  pose proof (kept_iternext _ _ _ [] _ _ (Subseq_nil : Subseq (kept csv.parse_reset) []) E)
    as H.
  cbn [concat app] in H. rewrite app_nil_r in H.
  unfold slice_to.
  repeat match goal with
         | |- context [if ?b then _ else _] => destruct b
         end; intros [= <-];
    rewrite ?concat_padded; try exact H;
    (eapply Subseq_trans; [apply Subseq_firstn|exact H]).
Qed.

(** X13: [parse_record] invents nothing.  The fields of the record it
    returns, read one after the other, are the value string with some of its
    characters left out (the commas and quotes that delimit the fields): no
    character is added, changed or moved, for any number of columns. *)
Theorem parse_record_keeps_text (s : str) (n : Z) (r : list str) :
  parse_record s n = Ok r ->
  Subseq (concat r) s
  /\ forall f c, In f r -> In c f -> In c s.
Proof.
  intros H. apply parse_record_subseq in H. split; [exact H|].
  intros f c Hf Hc. apply (Subseq_In _ _ _ H).
  apply in_concat. eauto.
Qed.

Lemma parse_record_keeps_text_witness :
  Subseq (concat ([lit "1"; lit "it's"; lit "a,b"] ++ repeat [] 13))
         (lit "1,'it''s','a,b'").
Proof.
  apply (parse_record_keeps_text (lit "1,'it''s','a,b'") 16
           ([lit "1"; lit "it's"; lit "a,b"] ++ repeat [] 13)).
  reflexivity.
Defined.

(* ===================================================================== *)
(** * The lines of the CSV *)
(* ===================================================================== *)

Lemma row_line_body row : row_line row = row_body row ++ [CR; LF].
Proof.
  rewrite row_line_eq. unfold row_body.
  destruct row as [|f row]; [reflexivity|].
  destruct f as [|c f]; destruct row as [|g row];
    rewrite <- ?app_assoc; reflexivity.
Qed.

Lemma single_line_doubled f : single_line (doubled f) = single_line f.
Proof.
  unfold doubled. induction f as [|c f IH]; [reflexivity|].
  cbn [flat_map]. rewrite single_line_app, IH.
  change (c :: f) with ([c] ++ f). rewrite single_line_app. f_equal.
  destruct (N.eqb_spec c 34) as [->|_]; reflexivity.
Qed.

Lemma single_line_rendered f : single_line (rendered f) = single_line f.
Proof.
  unfold rendered. destruct (needs_quotes f); [|reflexivity].
  rewrite !single_line_app, single_line_doubled.
  cbn. now rewrite andb_true_r.
Qed.

Lemma single_line_body row :
  Forall (fun f => single_line f = true) row -> single_line (row_body row) = true.
Proof.
  intros H. unfold row_body.
  destruct row as [|f row]; [reflexivity|].
  assert (Hgen : single_line (rendered f
                              ++ concat (map (fun g => 44%N :: rendered g) row))
                 = true).
  { inversion H as [|? ? Hf Hrow]; subst.
    rewrite single_line_app, single_line_rendered, Hf. cbn [andb].
    clear -Hrow. induction Hrow as [|g row Hg _ IH]; [reflexivity|].
    cbn [map concat]. rewrite single_line_app.
    change (44%N :: rendered g) with ([44%N] ++ rendered g).
    rewrite single_line_app, single_line_rendered, Hg, IH. reflexivity. }
  destruct f as [|c f]; [|exact Hgen].
  destruct row as [|g row]; [reflexivity|exact Hgen].
Qed.

Lemma parsed_single_line raws : forall rows,
  Forall (fun raw => single_line raw = true) raws ->
  Forall2 (fun raw row => parse_record raw 16 = Ok row) raws rows ->
  Forall (Forall (fun f => single_line f = true)) rows.
Proof.
  induction raws as [|raw raws IH]; intros rows Hraws H; inversion H; subst;
    constructor.
  - inversion Hraws as [|? ? Hraw _]; subst.
    match goal with Hrow : parse_record raw 16 = Ok _ |- _ =>
      apply parse_record_subseq in Hrow; rename Hrow into Hsub end.
    apply Forall_forall. intros f Hf. apply forallb_forall. intros c Hc.
    unfold single_line in Hraw. rewrite forallb_forall in Hraw. apply Hraw.
    apply (Subseq_In _ _ _ Hsub). apply in_concat. eauto.
  - apply IH; [now inversion Hraws|assumption].
Qed.

(** X14: every record of the CSV is on one line.  The value strings that
    the pattern extracts hold no line feed and parsing adds none, so
    whenever a run leaves the output CSV, the file is a sequence of lines,
    each closed by CR LF and with no other line feed in it: the header line
    and one line per extracted record. *)
Theorem one_line_per_record (env : Env) (csv_text : str) :
  file_content (snd (run env)) output_file = Some csv_text ->
  exists resp bodies,
    http_get env URL = Ok resp
    /\ csv_text = concat (map (fun b => b ++ [CR; LF]) bodies)
    /\ Forall (fun b => single_line b = true) bodies
    /\ length bodies = S (length (extract_value_strings (requests.text resp))).
Proof.
  intros H. apply run_csv_content in H as (resp & parsed & Hget & _ & Ht & -> & _).
  apply traverse_Forall2 in Ht.
  exists resp, (map row_body (HEADERS :: parsed)).
  split; [exact Hget|]. split; [|split].
  - rewrite <- HEADER_LINE_eq, map_map.
    change (row_line HEADERS ++ concat (map row_line parsed))
      with (concat (map row_line (HEADERS :: parsed))).
    f_equal. apply map_ext. intros row. apply row_line_body.
  - assert (Hrows : Forall (Forall (fun f => single_line f = true))
                           (HEADERS :: parsed)).
    { constructor.
      - apply Forall_forall. intros f Hf.
        assert (Hall : forallb single_line HEADERS = true) by reflexivity.
        rewrite forallb_forall in Hall. now apply Hall.
      - eapply parsed_single_line; [|exact Ht].
        apply Forall_forall. intros raw Hraw.
        eapply extracted_single_line, Hraw. }
    apply Forall_forall. intros b Hb. apply in_map_iff in Hb as (row & <- & Hrow).
    apply single_line_body. rewrite Forall_forall in Hrows. now apply Hrows.
  - cbn [map length]. rewrite length_map. f_equal. symmetry.
    eapply Forall2_length, Ht.
Qed.

Lemma one_line_per_record_witness :
  exists resp bodies,
    http_get (online 200 sample_sql) URL = Ok resp
    /\ HEADER_LINE ++ concat (map row_line sample_records)
       = concat (map (fun b => b ++ [CR; LF]) bodies)
    /\ Forall (fun b => single_line b = true) bodies
    /\ length bodies = S (length (extract_value_strings (requests.text resp))).
Proof.
  apply (one_line_per_record (online 200 sample_sql)).
  vm_compute. reflexivity.
Defined.

(* ===================================================================== *)
(** * The size limit of a field *)
(* ===================================================================== *)

(** X15: a field of more than 131072 characters makes [parse_record] raise
    [csv.Error]: when one of the values of a value string, bare or quoted,
    is longer than the reader's field size limit, no record is returned,
    whatever follows the value and whatever the number of columns. *)
Theorem oversized_field_raises (vs : list value) (post : str) (n : Z) :
  forallb value_ok vs = true ->
  forallb (fun v => fits (content v)) vs = false ->
  parse_record (leading vs ++ post) n = Raise (CsvError csv.field_limit_msg).
Proof.
  intros Hok Hfit. unfold parse_record, csv.reader_next.
  pose proof (feed_leading vs csv.parse_reset at_start_reset Hok) as H.
  rewrite Hfit in H. now rewrite (iternext_head_raises _ _ _ _ _ _ H).
Qed.

Lemma oversized_field_raises_witness :
  parse_record (leading [Bare (lit "1"); Quoted (repeat 97%N (N.to_nat 131073))]
                ++ lit "2") 16
  = Raise (CsvError csv.field_limit_msg).
Proof.
  apply (oversized_field_raises
           [Bare (lit "1"); Quoted (repeat 97%N (N.to_nat 131073))] (lit "2") 16);
    vm_compute; reflexivity.
Defined.

